(** * simplycall: router, dispatcher and HTTP transports

    A shallow embedding of [src/index.ts] (the [Router] class),
    [src/transports/http/throughFetch.ts] (the client side of the HTTP
    transport) and [src/transports/http/fromFetch.ts] (the server side),
    together with the properties of the dispatch pipeline and of the wire
    encoding.

    Conventions of the embedding:
    - a JavaScript value is a term of [value];
    - a synchronous call either returns or throws: [completion];
    - an awaited promise either resolves or rejects: [settlement]
      (promises that never settle are not modelled); where a value the
      embedding does not represent would be involved, the settlement is
      [Unknown] and nothing is said of it;
    - an object used as a dictionary ([Router.routes], the [handlers] of
      a scope) is a [gmap] of its own properties, looked up through the
      prototype chain of an object literal;
    - what [fetch] and [Request.formData()] do between the two transports
      is modelled by [deliver];
    - the calls made by the dispatcher are recorded in a trace of [event]s,
      so that "the handler is never invoked" is a statement about the
      trace. *)

From Stdlib Require Import ZArith List String Ascii Bool Lia.
From Stdlib Require Import Decimal DecimalString DecimalNat DecimalN.
From stdpp Require Import base option list strings gmap.

Local Open Scope string_scope.

#[local] Set Warnings "-register-all".
#[local] Arguments String.append !s1 s2 : simpl nomatch.

(** ** JavaScript values

    The embedding represents a fragment of the values of the language:
    the numbers that are integers (doubles with no fraction; negative zero
    is left out), the strings whose code units are below 256, objects as
    the list of their properties in enumeration order, a [Blob] (or
    [File]) as its bytes and an [Error] object as its name and message.
    Where the platform would produce a value outside this fragment the
    embedding says so ([Unrepresented], [Unknown]) instead of an answer. *)

Inductive value : Type :=
| VUndefined
| VNull
| VBool (b : bool)
| VNumber (n : Z)
| VString (s : string)
| VArray (elems : list value)
| VObject (props : list (string * value))
| VBlob (bytes : list Byte.byte)
| VError (name message : string).

(** Outcome of a synchronous call. *)
Inductive completion (A : Type) : Type :=
| Returns (a : A)
| Throws (e : value).
Arguments Returns {A} a.
Arguments Throws {A} e.

(** Outcome of awaiting a promise.  [Unknown]: a value outside the
    embedding's fragment is involved, and the embedding does not say how
    the promise settles. *)
Inductive settlement (A : Type) : Type :=
| Resolves (a : A)
| Rejects (e : value)
| Unknown.
Arguments Resolves {A} a.
Arguments Rejects {A} e.
Arguments Unknown {A}.

(** [Error(message)], and the engine's [TypeError] for a call of something
    that is not a function. *)
Definition Error (message : string) : value := VError "Error" message.
Definition TypeError (message : string) : value := VError "TypeError" message.

(** ** The router ([src/index.ts]) *)

(** The object a function is called on (its [this]).  The dispatcher makes
    two kinds of calls: [f.call({ [ctx]: c }, ...)], whose receiver holds a
    context under the [ctx] symbol, and [route.parser(...)], a method call
    whose receiver is the route entry [{ parser, handler }] itself. *)
Inductive receiver : Type :=
| ThisContext (c : value)
| ThisRoute.

(** [this[ctx]]: the route entry has no property under the symbol. *)
Definition ctx (this : receiver) : value :=
  match this with
  | ThisContext c => c
  | ThisRoute => VUndefined
  end.

(** A parser returns the validated arguments or throws.  A handler returns
    a promise, as its type [(...args) => Promise<any>] requires, unless it
    throws before it does.  The outcome is the one of evaluating
    [route.handler.call(...)] up to the promise the dispatcher chains
    [.then] on: [Throws e] also stands for a call that gives back something
    without a [then] method, [e] being the [TypeError] of the chaining. *)
Definition ParserFn : Type := receiver -> list value -> completion (list value).
Definition HandlerFn : Type :=
  receiver -> list value -> completion (settlement value).

(** An entry of [Router.routes].  [handler] is what [handlers[name]] gave
    at registration; [None] is [undefined]. *)
Record Route : Type := mkRoute {
  parser : ParserFn;
  handler : option HandlerFn
}.

(** A member of the [parsers] object: a function or the string
    ["assume typesafe"]. *)
Inductive ParserDecl : Type :=
| AssumeTypesafe
| CustomParser (p : ParserFn).

(** The call data [{ ctx, id, args }]. *)
Record Rpc : Type := mkRpc {
  rpc_ctx : value;
  rpc_id : string;
  rpc_args : list value
}.

(** Names every object literal inherits from [Object.prototype]. *)
Definition Object_prototype_names : list string :=
  [ "constructor"; "__defineGetter__"; "__defineSetter__"; "hasOwnProperty";
    "__lookupGetter__"; "__lookupSetter__"; "isPrototypeOf";
    "propertyIsEnumerable"; "toString"; "valueOf"; "__proto__";
    "toLocaleString" ].

Definition inherited (k : string) : bool :=
  bool_decide (k ∈ Object_prototype_names).

(** Result of [routes[k]] on [routes = {}] extended by assignments. *)
Inductive property : Type :=
| Own (r : Route)
| FromPrototype
| Missing.

Definition get_property (routes : gmap string Route) (k : string) : property :=
  match routes !! k with
  | Some r => Own r
  | None => if inherited k then FromPrototype else Missing
  end.

(** [k in routes]. *)
Definition has_property (routes : gmap string Route) (k : string) : bool :=
  match get_property routes k with
  | Missing => false
  | _ => true
  end.

(** [`${scope} ${name}`]. *)
Definition route_id (scope name : string) : string := scope +:+ " " +:+ name.

Definition declared_twice (id : string) : value :=
  Error ("Route [" +:+ id +:+ "] was declared twice and is not unique.").

Definition resolve_parser (d : ParserDecl) : ParserFn :=
  match d with
  | AssumeTypesafe => fun _ args => Returns args
  | CustomParser p => p
  end.

(** A member of [Object.prototype] stored as a handler and called by the
    dispatcher.  None of them gives a promise back: [__proto__] is an object
    without a [call] method, [__defineGetter__] and [__defineSetter__] throw
    on arguments that are not functions, [__lookupGetter__] and
    [__lookupSetter__] return [undefined] or a function, and the others
    return a string, a boolean or an object; so the expression
    [route.handler.call(...).then(...)] throws a [TypeError] (the messages
    are the engine's for the usual arguments). *)
Definition Object_prototype_member (name : string) : HandlerFn :=
  fun _ _ =>
    Throws (TypeError
      (if String.eqb name "__proto__" then "route.handler.call is not a function"
       else if String.eqb name "__defineGetter__"
         then "Object.prototype.__defineGetter__: Expecting function"
       else if String.eqb name "__defineSetter__"
         then "Object.prototype.__defineSetter__: Expecting function"
       else if String.eqb name "__lookupGetter__"
            || String.eqb name "__lookupSetter__"
         then "Cannot read properties of undefined (reading 'then')"
       else "route.handler.call(...).then is not a function")).

(** [handlers[name]] on the object literal whose own members are
    [handlers]: an own member, else the member inherited from
    [Object.prototype], else [undefined]. *)
Definition get_handler (handlers : gmap string HandlerFn) (name : string)
  : option HandlerFn :=
  match handlers !! name with
  | Some h => Some h
  | None =>
      if inherited name then Some (Object_prototype_member name) else None
  end.

(** [on(scope).with(handlers).conformArgumentsThrough(parsers)]: the loop
    over [Object.keys(parsers)], threading [boundThis.routes].  [parsers] is
    the list of the object's entries in key order and [handlers] the map of
    the object's own members.  The result is the registry as the call leaves
    it and whether the call returned or threw. *)
Fixpoint conformArgumentsThrough (scope : string)
    (handlers : gmap string HandlerFn) (parsers : list (string * ParserDecl))
    (routes : gmap string Route) : gmap string Route * completion unit :=
  match parsers with
  | [] => (routes, Returns tt)
  | (name, decl) :: rest =>
      let id := route_id scope name in
      if has_property routes id then (routes, Throws (declared_twice id))
      else
        conformArgumentsThrough scope handlers rest
          (<[id := mkRoute (resolve_parser decl) (get_handler handlers name)]>
             routes)
  end.

(** Calls observed while dispatching. *)
Inductive event : Type :=
| ParserCalled (this : receiver) (args : list value)
| HandlerCalled (this : receiver) (args : list value).

Definition err (kind : string) (payload : value) : value :=
  VObject [("err", VObject [(kind, payload)])].

Definition ok (v : value) : value := VObject [("ok", v)].

Definition does_not_exist (id : string) : value :=
  VString ("Route [" +:+ id +:+ "] does not exist!").

(** [Router.routeFromTransportInfallibly(rpc)]: the trace of calls and the
    settlement of the returned promise.  A [throw] that escapes the body of
    the [async] function rejects its promise. *)
Definition routeFromTransportInfallibly (routes : gmap string Route)
    (rpc : Rpc) : list event * settlement value :=
  match get_property routes (rpc_id rpc) with
  | Missing =>
      ([], Resolves (err "non existent route" (does_not_exist (rpc_id rpc))))
  | FromPrototype =>
      (* [route] is an inherited member of [Object.prototype]: truthy, and
         [route.parser] is [undefined]; calling it throws inside [try] *)
      ([], Resolves (err "argument parsing failed"
                       (TypeError "route.parser is not a function")))
  | Own route =>
      let called := [ParserCalled ThisRoute (rpc_args rpc)] in
      match parser route ThisRoute (rpc_args rpc) with
      | Throws error => (called, Resolves (err "argument parsing failed" error))
      | Returns args =>
          match handler route with
          | None =>
              (called,
               Rejects (TypeError
                 "Cannot read properties of undefined (reading 'call')"))
          | Some h =>
              let this := ThisContext (rpc_ctx rpc) in
              let called := (called ++ [HandlerCalled this args])%list in
              match h this args with
              | Throws e => (called, Rejects e)
              | Returns (Resolves v) => (called, Resolves (ok v))
              | Returns (Rejects e) =>
                  (called, Resolves (err "handler errored" e))
              | Returns Unknown => (called, Unknown)
              end
          end
      end
  end.

(** ** JSON ([JSON.stringify], [JSON.parse])

    The platform's serializer and parser on the fragment the embedding
    represents: integers are printed in plain decimal (as
    [Number::toString] does below 1e21), and a text that denotes a value
    outside the fragment is reported as such. *)

Definition dquote : ascii := "034"%char.
Definition backslash : ascii := "092"%char.

Definition hex_char (n : N) : ascii :=
  match n with
  | 0 => "0" | 1 => "1" | 2 => "2" | 3 => "3" | 4 => "4" | 5 => "5"
  | 6 => "6" | 7 => "7" | 8 => "8" | 9 => "9" | 10 => "a" | 11 => "b"
  | 12 => "c" | 13 => "d" | 14 => "e" | _ => "f"
  end%N%char.

(** [QuoteJSONString], one code unit. *)
Definition quote_char (c : ascii) : string :=
  if Ascii.eqb c dquote then String backslash (String dquote EmptyString)
  else if Ascii.eqb c backslash then String backslash (String backslash EmptyString)
  else if Ascii.eqb c "008" then String backslash "b"
  else if Ascii.eqb c "012" then String backslash "f"
  else if Ascii.eqb c "010" then String backslash "n"
  else if Ascii.eqb c "013" then String backslash "r"
  else if Ascii.eqb c "009" then String backslash "t"
  else if (N_of_ascii c <? 32)%N then
    String backslash
      (String "u" (String "0" (String "0"
        (String (hex_char (N_of_ascii c / 16))
          (String (hex_char (N_of_ascii c mod 16)) EmptyString)))))
  else String c EmptyString.

Fixpoint quote_chars (s : string) : string :=
  match s with
  | EmptyString => EmptyString
  | String c r => quote_char c +:+ quote_chars r
  end.

Definition quote (s : string) : string :=
  String dquote (quote_chars s +:+ String dquote EmptyString).

(** [Number::toString] on an integer. *)
Definition number_to_string (n : Z) : string :=
  NilEmpty.string_of_int (Z.to_int n).

(** [SerializeJSONProperty]: [None] is [undefined].  In an array an
    unserializable element prints as [null]; in an object its property is
    left out.  A [Blob] or an [Error] has no enumerable own property. *)
Fixpoint JSON_stringify (v : value) : option string :=
  match v with
  | VUndefined => None
  | VNull => Some "null"
  | VBool true => Some "true"
  | VBool false => Some "false"
  | VNumber n => Some (number_to_string n)
  | VString s => Some (quote s)
  | VArray elems =>
      Some ("[" +:+
            String.concat ","
              (map (fun e => default "null" (JSON_stringify e)) elems)
            +:+ "]")
  | VObject props =>
      Some ("{" +:+
            String.concat ","
              (omap (fun kv => (fun t => quote (fst kv) +:+ ":" +:+ t)
                                 <$> JSON_stringify (snd kv)) props)
            +:+ "}")
  | VBlob _ | VError _ _ => Some "{}"
  end.

Definition is_ws (c : ascii) : bool :=
  Ascii.eqb c " " || Ascii.eqb c "009" || Ascii.eqb c "010" || Ascii.eqb c "013".

Fixpoint skip_ws (s : string) : string :=
  match s with
  | EmptyString => EmptyString
  | String c r => if is_ws c then skip_ws r else s
  end.

Fixpoint strip_prefix (p s : string) : option string :=
  match p with
  | EmptyString => Some s
  | String a p' =>
      match s with
      | EmptyString => None
      | String b s' => if Ascii.eqb a b then strip_prefix p' s' else None
      end
  end.

Definition hex_value (c : ascii) : option N :=
  let n := N_of_ascii c in
  if (48 <=? n)%N && (n <=? 57)%N then Some (n - 48)%N
  else if (97 <=? n)%N && (n <=? 102)%N then Some (n - 87)%N
  else if (65 <=? n)%N && (n <=? 70)%N then Some (n - 55)%N
  else None.

Definition hex4 (a b c d : ascii) : option N :=
  match hex_value a, hex_value b, hex_value c, hex_value d with
  | Some x, Some y, Some z, Some w => Some (((x * 16 + y) * 16 + z) * 16 + w)%N
  | _, _, _, _ => None
  end.

Definition unescape (e : ascii) : option ascii :=
  if Ascii.eqb e dquote then Some dquote
  else if Ascii.eqb e backslash then Some backslash
  else if Ascii.eqb e "/" then Some "/"%char
  else if Ascii.eqb e "b" then Some "008"%char
  else if Ascii.eqb e "f" then Some "012"%char
  else if Ascii.eqb e "n" then Some "010"%char
  else if Ascii.eqb e "r" then Some "013"%char
  else if Ascii.eqb e "t" then Some "009"%char
  else None.

(** Outcome of reading a piece of JSON text: what was read and the text
    after it; [Invalid]: the text is not JSON; [Outside]: the text uses
    JSON the embedding does not interpret (a number with a fraction or an
    exponent, an integer beyond the safe range, [-0], an escape above
    U+00FF), and nothing is said of it. *)
Inductive scan (A : Type) : Type :=
| Found (a : A) (rest : string)
| Invalid
| Outside.
Arguments Found {A} a rest.
Arguments Invalid {A}.
Arguments Outside {A}.

Definition cons_char (c : ascii) (o : scan string) : scan string :=
  match o with
  | Found str r => Found (String c str) r
  | Invalid => Invalid
  | Outside => Outside
  end.

(** The characters of a string literal after its opening quote: the
    literal's value and the text after the closing quote. *)
Fixpoint parse_chars (s : string) : scan string :=
  match s with
  | EmptyString => Invalid
  | String c r =>
      if Ascii.eqb c dquote then Found EmptyString r
      else if Ascii.eqb c backslash then
        match r with
        | EmptyString => Invalid
        | String e r1 =>
            if Ascii.eqb e "u" then
              match r1 with
              | String h1 (String h2 (String h3 (String h4 r2))) =>
                  match hex4 h1 h2 h3 h4 with
                  | Some code =>
                      if (code <? 256)%N
                      then cons_char (ascii_of_N code) (parse_chars r2)
                      else Outside
                  | None => Invalid
                  end
              | _ => Invalid
              end
            else
              match unescape e with
              | Some x => cons_char x (parse_chars r1)
              | None => Invalid
              end
        end
      else if (N_of_ascii c <? 32)%N then Invalid
      else cons_char c (parse_chars r)
  end.

Definition is_digit (c : ascii) : bool :=
  match uint_of_char c (Some Nil) with
  | Some _ => true
  | None => false
  end.

(** The longest prefix of digits, and the text after it. *)
Fixpoint read_digits (s : string) : uint * string :=
  match s with
  | EmptyString => (Nil, EmptyString)
  | String c r =>
      if is_digit c then
        match uint_of_char c (Some (fst (read_digits r))) with
        | Some d => (d, snd (read_digits r))
        | None => (Nil, s)
        end
      else (Nil, s)
  end.

Definition MAX_SAFE_INTEGER : Z := 9007199254740991.

Definition continues_number (r : string) : bool :=
  match r with
  | String c _ => Ascii.eqb c "." || Ascii.eqb c "e" || Ascii.eqb c "E"
  | EmptyString => false
  end.

Definition leading_zero (d : uint) : bool :=
  match d with
  | D0 Nil => false
  | D0 _ => true
  | _ => false
  end.

Definition read_sign (s : string) : bool * string :=
  match s with
  | String c r => if Ascii.eqb c "-" then (true, r) else (false, s)
  | EmptyString => (false, s)
  end.

(** A number token: a sign, digits [d] and the text [r] after them.  No
    digit, or a zero in front of other digits, is not JSON.  A fraction or
    an exponent, an integer beyond the safe range and [-0] denote doubles
    outside the integer fragment. *)
Definition number_token (negative : bool) (d : uint) (r : string)
  : scan value :=
  match d with
  | Nil => Invalid
  | _ =>
      if leading_zero d then Invalid
      else if continues_number r then Outside
      else
        let n := Z.of_N (N.of_uint d) in
        if (n <=? MAX_SAFE_INTEGER)%Z && negb (negative && (n =? 0)%Z)
        then Found (VNumber (if negative then - n else n)%Z) r
        else Outside
  end.

Definition parse_number (s : string) : scan value :=
  let '(negative, s1) := read_sign s in
  let '(d, r) := read_digits s1 in
  number_token negative d r.

Definition number_start (c : ascii) : bool := is_digit c || Ascii.eqb c "-".

(** [CreateDataProperty] during parsing: a repeated key keeps its place and
    takes the later value. *)
Fixpoint set_prop (k : string) (v : value) (props : list (string * value))
  : list (string * value) :=
  match props with
  | [] => [(k, v)]
  | (k', v') :: rest =>
      if String.eqb k k' then (k, v) :: rest else (k', v') :: set_prop k v rest
  end.

Definition object_of_members (members : list (string * value))
  : list (string * value) :=
  fold_left (fun props kv => set_prop (fst kv) (snd kv) props) members [].

(** A literal name after its first letter. *)
Definition literal (v : value) (tail r : string) : scan value :=
  match strip_prefix tail r with
  | Some r' => Found v r'
  | None => Invalid
  end.

(** Recursive descent with fuel; every call consumes a character, so the
    length of the text is enough fuel. *)
Fixpoint parse_value (fuel : nat) (s : string) {struct fuel} : scan value :=
  match fuel with
  | O => Invalid
  | S fuel =>
      match skip_ws s with
      | EmptyString => Invalid
      | String c r =>
          if number_start c then parse_number (String c r)
          else if Ascii.eqb c "n" then literal VNull "ull" r
          else if Ascii.eqb c "t" then literal (VBool true) "rue" r
          else if Ascii.eqb c "f" then literal (VBool false) "alse" r
          else if Ascii.eqb c dquote then
            match parse_chars r with
            | Found str r' => Found (VString str) r'
            | Invalid => Invalid
            | Outside => Outside
            end
          else if Ascii.eqb c "[" then
            match strip_prefix "]" (skip_ws r) with
            | Some r' => Found (VArray []) r'
            | None =>
                match parse_elements fuel r with
                | Found vs r' => Found (VArray vs) r'
                | Invalid => Invalid
                | Outside => Outside
                end
            end
          else if Ascii.eqb c "{" then
            match strip_prefix "}" (skip_ws r) with
            | Some r' => Found (VObject []) r'
            | None =>
                match parse_members fuel r with
                | Found ms r' => Found (VObject (object_of_members ms)) r'
                | Invalid => Invalid
                | Outside => Outside
                end
            end
          else Invalid
      end
  end
with parse_elements (fuel : nat) (s : string) {struct fuel}
  : scan (list value) :=
  match fuel with
  | O => Invalid
  | S fuel =>
      match parse_value fuel s with
      | Invalid => Invalid
      | Outside => Outside
      | Found v r =>
          match skip_ws r with
          | String c r' =>
              if Ascii.eqb c "]" then Found [v] r'
              else if Ascii.eqb c "," then
                match parse_elements fuel r' with
                | Found vs r'' => Found (v :: vs) r''
                | Invalid => Invalid
                | Outside => Outside
                end
              else Invalid
          | EmptyString => Invalid
          end
      end
  end
with parse_members (fuel : nat) (s : string) {struct fuel}
  : scan (list (string * value)) :=
  match fuel with
  | O => Invalid
  | S fuel =>
      match skip_ws s with
      | String q r0 =>
          if Ascii.eqb q dquote then
            match parse_chars r0 with
            | Invalid => Invalid
            | Outside => Outside
            | Found k r1 =>
                match skip_ws r1 with
                | String colon r2 =>
                    if Ascii.eqb colon ":" then
                      match parse_value fuel r2 with
                      | Invalid => Invalid
                      | Outside => Outside
                      | Found v r =>
                          match skip_ws r with
                          | String c r' =>
                              if Ascii.eqb c "}" then Found [(k, v)] r'
                              else if Ascii.eqb c "," then
                                match parse_members fuel r' with
                                | Found ms r'' => Found ((k, v) :: ms) r''
                                | Invalid => Invalid
                                | Outside => Outside
                                end
                              else Invalid
                          | EmptyString => Invalid
                          end
                      end
                    else Invalid
                | EmptyString => Invalid
                end
            end
          else Invalid
      | EmptyString => Invalid
      end
  end.

Definition SyntaxError : value := VError "SyntaxError" "Unexpected token in JSON".

(** Outcome of [JSON.parse(text)]: the value it returns; [Malformed]: it
    throws a [SyntaxError]; [Unrepresented]: the text uses JSON the
    embedding does not interpret, and the embedding does not say what
    [JSON.parse] does. *)
Inductive parsed : Type :=
| Parsed (v : value)
| Malformed
| Unrepresented.

(** [JSON.parse(text)]. *)
Definition JSON_parse (text : string) : parsed :=
  match parse_value (S (String.length text)) text with
  | Found v r =>
      match skip_ws r with
      | EmptyString => Parsed v
      | _ => Malformed
      end
  | Invalid => Malformed
  | Outside => Unrepresented
  end.

(** Where a serialized value may end inside a larger text. *)
Definition terminal (rest : string) : bool :=
  match rest with
  | EmptyString => true
  | String c _ => Ascii.eqb c "," || Ascii.eqb c "]" || Ascii.eqb c "}"
  end.

(** The values of the embedding that [JSON.parse (JSON.stringify v)] gives
    back unchanged: no [undefined], [Blob] or [Error] inside, integers
    within the safe range, no repeated key. *)
Fixpoint representable (v : value) : bool :=
  match v with
  | VNull | VBool _ | VString _ => true
  | VNumber n => (Z.abs n <=? MAX_SAFE_INTEGER)%Z
  | VArray elems => forallb representable elems
  | VObject props =>
      bool_decide (NoDup (map fst props))
      && forallb (fun kv => representable (snd kv)) props
  | VUndefined | VBlob _ | VError _ _ => false
  end.

(** ** The HTTP transports *)

(** A [FormData] entry value: a string, or a [File] (a [Blob] set on a
    [FormData] is stored as a [File] with the same bytes). *)
Inductive FormDataEntryValue : Type :=
| EntryString (s : string)
| EntryFile (bytes : list Byte.byte).

Definition FormData : Type := list (string * FormDataEntryValue).

Definition named (name : string) (entry : string * FormDataEntryValue) : bool :=
  String.eqb (fst entry) name.

(** [body.set(name, v)]: replaces the first entry called [name] and drops the
    others, or appends. *)
Fixpoint FormData_set (name : string) (v : FormDataEntryValue)
    (body : FormData) : FormData :=
  match body with
  | [] => [(name, v)]
  | entry :: rest =>
      if named name entry
      then (name, v) :: List.filter (fun e => negb (named name e)) rest
      else entry :: FormData_set name v rest
  end.

(** [body.get(name)]: the first entry called [name], or [null]. *)
Fixpoint FormData_get (name : string) (body : FormData)
  : option FormDataEntryValue :=
  match body with
  | [] => None
  | entry :: rest =>
      if named name entry then Some (snd entry) else FormData_get name rest
  end.

Definition Headers : Type := list (string * string).

(** [headers.get(name)]: the first header called [name], or [null].  Names
    are compared as written; the names the transports read are in lower
    case on both sides, and [Content-Type] is looked up as the transports
    write it. *)
Fixpoint Headers_get (name : string) (headers : Headers) : option string :=
  match headers with
  | [] => None
  | (k, v) :: rest => if String.eqb k name then Some v else Headers_get name rest
  end.

(** [`${i}`]. *)
Definition index_key (i : nat) : string :=
  NilEmpty.string_of_uint (Nat.to_uint i).

(** [arg instanceof Blob ? arg : JSON.stringify(arg)], as stored by
    [FormData.set]: an [undefined] is stored as its string conversion. *)
Definition part_of (arg : value) : FormDataEntryValue :=
  match arg with
  | VBlob bytes => EntryFile bytes
  | _ => EntryString (default "undefined" (JSON_stringify arg))
  end.

(** [arg instanceof Blob ? "b" : "j"]. *)
Definition tag_of (arg : value) : string :=
  match arg with
  | VBlob _ => "b"
  | _ => "j"
  end.

(** An entry as a value, its [toString()], and whether [!entry] holds. *)
Definition value_of_entry (data : FormDataEntryValue) : value :=
  match data with
  | EntryString s => VString s
  | EntryFile bytes => VBlob bytes
  end.

Definition entry_toString (data : FormDataEntryValue) : string :=
  match data with
  | EntryString s => s
  | EntryFile _ => "[object File]"
  end.

Definition falsy (data : FormDataEntryValue) : bool :=
  match data with
  | EntryString EmptyString => true
  | _ => false
  end.

(** *** Client side ([throughFetch.ts]) *)

(** The second argument of [fetch]. *)
Record RequestInit : Type := mkRequestInit {
  init_headers : Headers;
  init_method : string;
  init_body : FormData
}.

(** What the client reads of a [Response]. *)
Record Response : Type := mkResponse {
  response_headers : Headers;
  response_formData : settlement FormData
}.

(** The loop over [rpc.args.map((arg, i) => [arg, i])], from position [i]. *)
Fixpoint encode_args (args : list value) (i : nat) (body : FormData)
    (argtype : list string) : FormData * list string :=
  match args with
  | [] => (body, argtype)
  | arg :: rest =>
      encode_args rest (S i) (FormData_set (index_key i) (part_of arg) body)
        (argtype ++ [tag_of arg])%list
  end.

(** The request [sendThroughTransportFallibly] hands to [fetch]. *)
Definition request_init (rpc : Rpc) : RequestInit :=
  let '(body, argtype) := encode_args (rpc_args rpc) 0 [] [] in
  {| init_headers :=
       [ ("x-simplycall-id", rpc_id rpc);
         ("x-simplycall-argtype", String.concat EmptyString argtype);
         ("Content-Type", "multipart/form-data") ];
     init_method := "POST";
     init_body := body |}.

(** An [async] callback that ends with [return JSON.parse(text)]. *)
Definition return_parsed (text : string) : settlement value :=
  match JSON_parse text with
  | Parsed v => Resolves v
  | Malformed => Rejects SyntaxError
  | Unrepresented => Unknown
  end.

(** The callback given to [.then] on the promise of [fetch]. *)
Definition decode_response (id : string) (result : Response)
  : settlement value :=
  let argtype := Headers_get "x-simplycall-argtype" (response_headers result) in
  let binary := bool_decide (argtype = Some "b") in
  if negb binary && negb (bool_decide (argtype = Some "j")) then
    Rejects (Error ("Unable to parse response type [" +:+ default "null" argtype
                    +:+ "] for [" +:+ id +:+ "]."))
  else
    match response_formData result with
    | Rejects e => Rejects e
    | Unknown => Unknown
    | Resolves formData =>
        let no_response :=
          Rejects (Error ("No response received for [" +:+ id +:+ "].")) in
        match FormData_get "0" formData with
        | None => no_response
        | Some response =>
            if falsy response then no_response
            else if binary then Resolves (value_of_entry response)
            else return_parsed (entry_toString response)
        end
    end.

(** [makeTransportThroughFetch(config)], with the global [fetch] it calls. *)
Section makeTransportThroughFetch.
Variable config_url : string.
Variable fetch : string -> RequestInit -> settlement Response.

(** [sendThroughTransportFallibly(rpc)]: the function awaits the chained
    promise and ends without a [return] statement. *)
Definition sendThroughTransportFallibly (rpc : Rpc) : settlement value :=
  match fetch config_url (request_init rpc) with
  | Rejects e => Rejects e
  | Unknown => Unknown
  | Resolves result =>
      match decode_response (rpc_id rpc) result with
      | Rejects e => Rejects e
      | Unknown => Unknown
      | Resolves _ => Resolves VUndefined
      end
  end.
End makeTransportThroughFetch.

(** *** Server side ([fromFetch.ts]) *)

(** What the server reads of a [Request]. *)
Record Request : Type := mkRequest {
  request_headers : Headers;
  request_formData : settlement FormData
}.

(** How the loop over the tag characters ends: all arguments decoded, an
    early [return] of an error object, or an exception.  [Undecoded]: a
    part holds JSON the embedding does not interpret. *)
Inductive decoding : Type :=
| Decoded (args : list value)
| Refused (response : value)
| Raised (e : value)
| Undecoded.

Definition unknown_argument_type (id argtype : string) : value :=
  err "unknown argument type"
    (VString ("Route [" +:+ id +:+ "] called with unknown argument type of ["
              +:+ argtype +:+ "].")).

Definition missing_argument (id : string) (type : ascii) (i : nat) : value :=
  err "missing argument"
    (VString ("Route [" +:+ id +:+ "] is missing [" +:+ String type EmptyString
              +:+ "] type argument at position [" +:+ index_key i +:+ "].")).

(** The loop over [argtype.split("").map((type, i) => [type, i])], from
    position [i] with [args] already pushed. *)
Fixpoint decode_args (id argtype : string) (formData : FormData)
    (types : list ascii) (i : nat) (args : list value) : decoding :=
  match types with
  | [] => Decoded args
  | type :: rest =>
      if negb (Ascii.eqb type "b") && negb (Ascii.eqb type "j")
      then Refused (unknown_argument_type id argtype)
      else
        match FormData_get (index_key i) formData with
        | None => Refused (missing_argument id type i)
        | Some data =>
            if falsy data then Refused (missing_argument id type i)
            else if Ascii.eqb type "b" then
              decode_args id argtype formData rest (S i)
                (args ++ [value_of_entry data])%list
            else
              match JSON_parse (entry_toString data) with
              | Parsed v =>
                  decode_args id argtype formData rest (S i) (args ++ [v])%list
              | Malformed => Raised SyntaxError
              | Unrepresented => Undecoded
              end
        end
  end.

(** ["err" in response] and [response.ok] on an object. *)
Definition has_key (k : string) (v : value) : bool :=
  match v with
  | VObject props => existsb (fun kv => String.eqb (fst kv) k) props
  | _ => false
  end.

Definition get_key (k : string) (v : value) : value :=
  match v with
  | VObject props =>
      match List.find (fun kv => String.eqb (fst kv) k) props with
      | Some kv => snd kv
      | None => VUndefined
      end
  | _ => VUndefined
  end.

(** The object [onRequestInfallibly] returns: an error object as it is, or
    [{ ok: { body, headers } }]. *)
Inductive reply : Type :=
| Failure (response : value)
| Success (body : FormData) (headers : Headers).

(** What the function returns once the dispatcher has settled: the
    statements after [await handler.routeFromTransportInfallibly(...)]. *)
Definition respond (outcome : settlement value) : settlement reply :=
  match outcome with
  | Rejects e => Rejects e
  | Unknown => Unknown
  | Resolves response =>
      if has_key "err" response then Resolves (Failure response)
      else
        let result := get_key "ok" response in
        Resolves
          (Success
             (FormData_set "0" (part_of result) [])
             [ ("x-simplycall-argtype", tag_of result);
               ("Content-Type", "multipart/form-data") ])
  end.

(** [makeTransportFromFetch(handler)]; [handler] stands for
    [handler.routeFromTransportInfallibly]. *)
Section makeTransportFromFetch.
Variable handler : Rpc -> settlement value.

(** [onRequestInfallibly(request, ctx)]. *)
Definition onRequestInfallibly (request : Request) (context : value)
  : settlement reply :=
  match Headers_get "x-simplycall-id" (request_headers request) with
  | None => Resolves (Failure (err "id not provided" (VString EmptyString)))
  | Some id =>
      match Headers_get "x-simplycall-argtype" (request_headers request) with
      | None =>
          Resolves (Failure (err "function arguments are untyped"
                               (VString EmptyString)))
      | Some argtype =>
          match request_formData request with
          | Rejects e => Resolves (Failure (VObject [("err", e)]))
          | Unknown => Unknown
          | Resolves formData =>
              match decode_args id argtype formData
                      (list_ascii_of_string argtype) 0 [] with
              | Refused response => Resolves (Failure response)
              | Raised e => Rejects e
              | Undecoded => Unknown
              | Decoded args => respond (handler (mkRpc context id args))
              end
          end
      end
  end.
End makeTransportFromFetch.

(** *** Between the two sides ([fetch], [Request.formData()])

    [fetch] serializes a [FormData] body as multipart text with a boundary
    of its own choosing, and names that boundary in a [Content-Type] header
    it adds, unless the headers it is given have a [Content-Type] already:
    that one is sent as it is.  On the server, [request.formData()] splits
    the body at the boundary the [Content-Type] header names, and rejects
    with a [TypeError] when the header names none.  Parts that are split at
    the boundary they were joined with are read as they were set (the
    encoding rewrites lone line breaks in string parts; the parts the send
    side sets have none, [JSON.stringify] escapes them). *)

(** The [boundary] parameter of a [Content-Type] value. *)
Fixpoint boundary_of (content_type : string) : option string :=
  match content_type with
  | EmptyString => None
  | String _ r =>
      match strip_prefix "boundary=" content_type with
      | Some b => Some b
      | None => boundary_of r
      end
  end.

Definition unreadable_body : value :=
  TypeError "Failed to parse body as FormData.".

Section wire.
(** The boundary [fetch] generates for the call. *)
Variable boundary : string.

Definition sent_headers (init : RequestInit) : Headers :=
  match Headers_get "Content-Type" (init_headers init) with
  | Some _ => init_headers init
  | None =>
      (init_headers init
       ++ [("Content-Type", "multipart/form-data; boundary=" +:+ boundary)])%list
  end.

(** [request.formData()] on the multipart text of [body]. *)
Definition read_formData (headers : Headers) (body : FormData)
  : settlement FormData :=
  match Headers_get "Content-Type" headers ≫= boundary_of with
  | Some b =>
      if String.eqb b boundary then Resolves body else Rejects unreadable_body
  | None => Rejects unreadable_body
  end.

(** The [Request] the server gets for [fetch(url, init)]. *)
Definition deliver (init : RequestInit) : Request :=
  mkRequest (sent_headers init)
    (read_formData (sent_headers init) (init_body init)).
End wire.

(** The same call with the [Content-Type] left to [fetch]. *)
Definition boundary_left_to_fetch (init : RequestInit) : RequestInit :=
  mkRequestInit
    (List.filter (fun kv => negb (String.eqb (fst kv) "Content-Type"))
       (init_headers init))
    (init_method init) (init_body init).

(** ** Vocabulary of the statements *)

Fixpoint has_space (s : string) : bool :=
  match s with
  | EmptyString => false
  | String c r => Ascii.eqb c " " || has_space r
  end.

(** The registry after the entries [batch] have been inserted in order. *)
Definition registered (scope : string) (handlers : gmap string HandlerFn)
    (batch : list (string * ParserDecl)) (routes : gmap string Route)
  : gmap string Route :=
  foldl (fun r entry =>
           <[route_id scope (fst entry) :=
               mkRoute (resolve_parser (snd entry))
                 (get_handler handlers (fst entry))]> r)
        routes batch.

(** What the induction proves of a value: its text parses back to it, in
    front of any text a value may be followed by, with fuel beyond the
    length of the text. *)
Definition parses_back (v : value) : Prop :=
  representable v = true ->
  forall t, JSON_stringify v = Some t ->
  forall fuel rest, terminal rest = true -> String.length t < fuel ->
  parse_value fuel (t +:+ rest) = Found v rest.

Definition element_text (e : value) : string :=
  default "null" (JSON_stringify e).

Definition member_text (kv : string * value) : string :=
  quote (fst kv) +:+ ":" +:+ element_text (snd kv).

(** The arguments the two loops carry: a [Blob], or a value of the
    embedding that goes through JSON unchanged. *)
Definition transportable (arg : value) : bool :=
  match arg with
  | VBlob _ => true
  | _ => representable arg
  end.

Definition tag_char (arg : value) : ascii :=
  match arg with
  | VBlob _ => "b"
  | _ => "j"
  end%char.

(** The parts the send loop sets for [args], from position [i]. *)
Fixpoint parts (i : nat) (args : list value) : FormData :=
  match args with
  | [] => []
  | arg :: rest => (index_key i, part_of arg) :: parts (S i) rest
  end.




(** ** Scenarios

    Registries and requests of the repository's tests and of the scenarios
    the properties are checked on. *)

(** The registry of the scenarios: scope [s], route [r], parser opted out,
    handler resolving to 42. *)
Definition scenario_routes : gmap string Route :=
  fst (conformArgumentsThrough "s"
         {[ "r" := fun _ _ => Returns (Resolves (VNumber 42)) ]}
         [("r", AssumeTypesafe)] ∅).

(** A route whose handler is an ordinary function that throws. *)
Definition throwing_routes : gmap string Route :=
  fst (conformArgumentsThrough "s"
         {[ "r" := fun _ _ => Throws (Error "boom") ]}
         [("r", AssumeTypesafe)] ∅).

(** A parser that lets a call through only when the context under [ctx] is
    the string [admin]. *)
Definition admin_only : ParserFn :=
  fun this args =>
    match ctx this with
    | VString "admin" => Returns args
    | _ => Throws (Error "unauthenticated")
    end.

Definition guarded_routes : gmap string Route :=
  fst (conformArgumentsThrough "s"
         {[ "r" := fun _ _ => Returns (Resolves (VNumber 42)) ]}
         [("r", CustomParser admin_only)] ∅).

(** The route of the test "rejects on parse error". *)
Definition always_fail_routes : gmap string Route :=
  fst (conformArgumentsThrough "scope"
         {[ "route1" := fun _ _ => Returns (Resolves (VString "route1")) ]}
         [("route1", CustomParser (fun _ _ => Throws (Error "always fail")))] ∅).

(** The route of the test "rejects on unexpected route error": an [async]
    handler that throws returns a rejected promise. *)
Definition rejecting_routes : gmap string Route :=
  fst (conformArgumentsThrough "scope"
         {[ "route1" := fun _ _ => Returns (Rejects (Error "always fail")) ]}
         [("route1", AssumeTypesafe)] ∅).

(** A server answering every request with the JSON text [42]. *)
Definition answer_42 : Response :=
  mkResponse [("x-simplycall-argtype", "j")] (Resolves [("0", EntryString "42")]).

(** A request with one tagged argument and two parts beyond it. *)
Definition crowded_request : Request :=
  mkRequest [("x-simplycall-id", "s r"); ("x-simplycall-argtype", "j")]
    (Resolves [("0", EntryString "1"); ("1", EntryString "2");
               ("7", EntryFile [Byte.x2a])]).

(** ** The rest of the interface *)

(** [new Client(transport).on(scope, ...options)[prop](...args)]: the proxy
    hands [{ id, args, ctx: options[0] }] to
    [transport.sendThroughTransportFallibly] and returns what it returns. *)
Definition Client_on (transport : Rpc -> settlement value) (scope : string)
    (options : list value) (prop : string) (args : list value)
  : settlement value :=
  transport (mkRpc (nth 0 options VUndefined) (route_id scope prop) args).

(** The router as the [handler] of [makeTransportFromFetch(router)], and as
    a transport of its own. *)
Definition router_handler (routes : gmap string Route) (rpc : Rpc)
  : settlement value :=
  snd (routeFromTransportInfallibly routes rpc).

(** What the dispatcher makes of the outcome of the handler's call. *)
Definition settle (outcome : completion (settlement value)) : settlement value :=
  match outcome with
  | Throws e => Rejects e
  | Returns (Resolves v) => Resolves (ok v)
  | Returns (Rejects e) => Resolves (err "handler errored" e)
  | Returns Unknown => Unknown
  end.

(** A tag character the receive side knows. *)
Definition known_tag (type : ascii) : Prop := type = "b"%char \/ type = "j"%char.

(** The routes of the test "allows multiple functions on single scope". *)
Definition two_handlers : gmap string HandlerFn :=
  {[ "route1" := fun _ _ => Returns (Resolves (VString "route1"));
     "route2" := fun _ _ => Returns (Resolves (VString "route2")) ]}.

(** A parser that keeps the first argument only, and a handler that
    answers with the arguments it is given. *)
Definition first_only : ParserFn := fun _ args => Returns (take 1 args).

Definition echo : HandlerFn := fun _ args => Returns (Resolves (VArray args)).

Definition echo_routes : gmap string Route :=
  fst (conformArgumentsThrough "s" {[ "echo" := echo ]}
         [("echo", CustomParser first_only)] ∅).

(** A request whose second argument is tagged [j] and is a file. *)
Definition file_as_json : Request :=
  mkRequest [("x-simplycall-id", "s r"); ("x-simplycall-argtype", "bj")]
    (Resolves [("0", EntryFile [Byte.x01]); ("1", EntryFile [Byte.x02])]).

(** A request whose only part is the empty string. *)
Definition empty_part : Request :=
  mkRequest [("x-simplycall-id", "s r"); ("x-simplycall-argtype", "b")]
    (Resolves [("0", EntryString EmptyString)]).

(** A request whose second tag is not one the receive side knows. *)
Definition unknown_tag : Request :=
  mkRequest [("x-simplycall-id", "s r"); ("x-simplycall-argtype", "jx")]
    (Resolves [("0", EntryString "1")]).

(** * Properties *)

(** ** Registration *)

Lemma route_id_has_space scope name : has_space (route_id scope name) = true.
Proof.
  unfold route_id. induction scope as [|c scope IH]; simpl in *.
  - reflexivity.
  - rewrite IH. apply orb_true_r.
Qed.

(** No identifier built by the router collides with a member of
    [Object.prototype], so [id in routes] only sees registered routes. *)
Lemma route_id_not_inherited scope name : inherited (route_id scope name) = false.
Proof.
  unfold inherited. apply bool_decide_eq_false. intros Hin.
  pose proof (route_id_has_space scope name) as Hsp.
  unfold Object_prototype_names in Hin.
  repeat (apply elem_of_cons in Hin as [Heq | Hin];
          [rewrite Heq in Hsp; discriminate Hsp |]).
  by apply elem_of_nil in Hin.
Qed.

Lemma has_property_route_id routes scope name :
  has_property routes (route_id scope name)
  = bool_decide (is_Some (routes !! route_id scope name)).
Proof.
  unfold has_property, get_property.
  destruct (routes !! route_id scope name) as [r|] eqn:E.
  - symmetry. apply bool_decide_eq_true. eauto.
  - rewrite route_id_not_inherited. symmetry. apply bool_decide_eq_false.
    by intros [? ?].
Qed.

Lemma route_id_inj scope n1 n2 : route_id scope n1 = route_id scope n2 -> n1 = n2.
Proof.
  unfold route_id. intros H.
  apply (inj (String.app scope)) in H. by injection H.
Qed.

(** Entries that are new to the registry and to each other all register. *)
Lemma conformArgumentsThrough_fresh scope handlers pre rest routes :
  NoDup (map fst pre) ->
  (forall n, n ∈ map fst pre -> routes !! route_id scope n = None) ->
  conformArgumentsThrough scope handlers (pre ++ rest) routes
  = conformArgumentsThrough scope handlers rest
      (registered scope handlers pre routes).
Proof.
  revert routes. induction pre as [|[name decl] pre IH]; intros routes Hnd Hfresh.
  - reflexivity.
  - simpl in *. apply NoDup_cons in Hnd as [Hnotin Hnd].
    rewrite has_property_route_id.
    rewrite bool_decide_eq_false_2.
    2:{ rewrite (Hfresh name); [by intros [? ?] | by left]. }
    apply IH; [done |].
    intros n Hn. rewrite lookup_insert_ne.
    + apply Hfresh. by right.
    + intros Heq. apply route_id_inj in Heq. by subst.
Qed.

Lemma registered_lookup_old scope handlers batch routes k :
  (forall n, n ∈ map fst batch -> k <> route_id scope n) ->
  registered scope handlers batch routes !! k = routes !! k.
Proof.
  unfold registered. revert routes.
  induction batch as [|[name decl] batch IH]; intros routes Hk; simpl.
  - reflexivity.
  - rewrite IH.
    + apply lookup_insert_ne. intros Heq. apply (Hk name); [by left | done].
    + intros n Hn. apply Hk. by right.
Qed.

Lemma registered_lookup_new scope handlers batch routes name decl :
  NoDup (map fst batch) ->
  (name, decl) ∈ batch ->
  registered scope handlers batch routes !! route_id scope name
  = Some (mkRoute (resolve_parser decl) (get_handler handlers name)).
Proof.
  unfold registered. revert routes.
  induction batch as [|[n d] batch IH]; intros routes Hnd Hin; simpl in *.
  - by apply elem_of_nil in Hin.
  - apply NoDup_cons in Hnd as [Hnotin Hnd].
    apply elem_of_cons in Hin as [Heq | Hin].
    + injection Heq as -> ->.
      fold (registered scope handlers batch
              (<[route_id scope n :=
                   mkRoute (resolve_parser d) (get_handler handlers n)]> routes)).
      rewrite registered_lookup_old.
      * apply lookup_insert_eq.
      * intros n' Hn' Heq. apply route_id_inj in Heq. by subst.
    + by apply IH.
Qed.

Lemma registered_lookup_inv scope handlers batch routes k :
  is_Some (registered scope handlers batch routes !! k) ->
  is_Some (routes !! k) \/ exists n, n ∈ map fst batch /\ k = route_id scope n.
Proof.
  unfold registered. revert routes.
  induction batch as [|[n d] batch IH]; intros routes Hk; simpl in *.
  - by left.
  - apply IH in Hk as [Hk | (n' & Hn' & ->)].
    + destruct (decide (route_id scope n = k)) as [<- | Hne].
      * right. exists n. split; [by left | done].
      * rewrite lookup_insert_ne in Hk by done. by left.
    + right. exists n'. split; [by right | done].
Qed.

(** C4. Registering an identifier that is already present throws an error
    that names exactly that identifier; in a batch the loop stops at the
    first such entry: the entries before it stay registered, the routes that
    were there before are unchanged, and nothing else is added. *)
Theorem conformArgumentsThrough_duplicate scope handlers pre name decl post routes :
  NoDup (map fst pre) ->
  (forall n, n ∈ map fst pre -> routes !! route_id scope n = None) ->
  is_Some (routes !! route_id scope name) ->
  exists routes',
    conformArgumentsThrough scope handlers (pre ++ (name, decl) :: post) routes
    = (routes',
       Throws (Error ("Route [" +:+ route_id scope name
                      +:+ "] was declared twice and is not unique.")))
    /\ (forall k r, routes !! k = Some r -> routes' !! k = Some r)
    /\ (forall n d, (n, d) ∈ pre ->
          routes' !! route_id scope n
          = Some (mkRoute (resolve_parser d) (get_handler handlers n)))
    /\ (forall k, is_Some (routes' !! k) ->
          is_Some (routes !! k) \/ exists n, n ∈ map fst pre /\ k = route_id scope n).
Proof.
  intros Hnd Hfresh Hdup.
  exists (registered scope handlers pre routes).
  assert (Hold : forall k, is_Some (routes !! k) ->
            registered scope handlers pre routes !! k = routes !! k).
  { intros k Hk. apply registered_lookup_old. intros n Hn ->.
    rewrite (Hfresh n Hn) in Hk. by destruct Hk. }
  split; [| split; [| split]].
  - rewrite conformArgumentsThrough_fresh by done. simpl.
    rewrite has_property_route_id, bool_decide_eq_true_2; [done |].
    by rewrite Hold.
  - intros k r Hk. rewrite Hold; eauto.
  - intros n d Hin. by apply registered_lookup_new.
  - apply registered_lookup_inv.
Qed.

Lemma conformArgumentsThrough_duplicate_witness :
  exists routes',
    conformArgumentsThrough "s" ∅
      ([("a", AssumeTypesafe)] ++ ("r", AssumeTypesafe) :: [("z", AssumeTypesafe)])
      scenario_routes
    = (routes',
       Throws (Error ("Route [" +:+ route_id "s" "r"
                      +:+ "] was declared twice and is not unique.")))
    /\ (forall k r, scenario_routes !! k = Some r -> routes' !! k = Some r)
    /\ (forall n d, (n, d) ∈ [("a", AssumeTypesafe)] ->
          routes' !! route_id "s" n
          = Some (mkRoute (resolve_parser d) (get_handler ∅ n)))
    /\ (forall k, is_Some (routes' !! k) ->
          is_Some (scenario_routes !! k)
          \/ exists n, n ∈ map fst [("a", AssumeTypesafe)] /\ k = route_id "s" n).
Proof.
  apply (conformArgumentsThrough_duplicate "s" ∅ [("a", AssumeTypesafe)]
           "r" AssumeTypesafe [("z", AssumeTypesafe)] scenario_routes).
  - apply NoDup_singleton.
  - intros n Hn. apply list_elem_of_singleton in Hn. subst n. reflexivity.
  - eexists. reflexivity.
Defined.

(** The test "crashes on declaration if identifier collides". *)
Example declared_twice_message :
  snd (conformArgumentsThrough "scope"
         {[ "route1" := fun _ _ => Returns (Resolves (VString "route1")) ]}
         [("route1", AssumeTypesafe)]
         (fst (conformArgumentsThrough "scope"
                 {[ "route1" := fun _ _ => Returns (Resolves (VString "route1")) ]}
                 [("route1", AssumeTypesafe)] ∅)))
  = Throws (VError "Error"
              "Route [scope route1] was declared twice and is not unique.").
Proof. reflexivity. Qed.

(** ** Dispatch *)

Example scenario_dispatch :
  snd (routeFromTransportInfallibly scenario_routes (mkRpc VUndefined "s r" []))
  = Resolves (VObject [("ok", VNumber 42)]).
Proof. reflexivity. Qed.

Example scenario_missing :
  routeFromTransportInfallibly scenario_routes (mkRpc VUndefined "s missing" [])
  = ([], Resolves (VObject [("err",
           VObject [("non existent route",
                     VString "Route [s missing] does not exist!")])])).
Proof. reflexivity. Qed.

(** An identifier that is neither registered nor a member of
    [Object.prototype] is reported as a non existent route, and nothing is
    called. *)
Lemma dispatch_missing routes rpc :
  routes !! rpc_id rpc = None ->
  inherited (rpc_id rpc) = false ->
  routeFromTransportInfallibly routes rpc
  = ([], Resolves (err "non existent route"
                     (VString ("Route [" +:+ rpc_id rpc +:+ "] does not exist!")))).
Proof.
  intros Hnone Hinh. unfold routeFromTransportInfallibly, get_property.
  by rewrite Hnone, Hinh.
Qed.

(** An unregistered identifier that names a member of [Object.prototype]
    passes the [!route] test. *)
Lemma dispatch_inherited routes rpc :
  routes !! rpc_id rpc = None ->
  inherited (rpc_id rpc) = true ->
  routeFromTransportInfallibly routes rpc
  = ([], Resolves (err "argument parsing failed"
                     (TypeError "route.parser is not a function"))).
Proof.
  intros Hnone Hinh. unfold routeFromTransportInfallibly, get_property.
  by rewrite Hnone, Hinh.
Qed.

(** The dispatcher calls the parser at most once, first, on the route entry,
    with the arguments of the call. *)
Lemma dispatch_parser_call routes rpc this args :
  ParserCalled this args ∈ fst (routeFromTransportInfallibly routes rpc) ->
  this = ThisRoute /\ args = rpc_args rpc.
Proof.
  unfold routeFromTransportInfallibly.
  destruct (get_property routes (rpc_id rpc)) as [route| |]; simpl;
    try (intros H; by apply elem_of_nil in H).
  destruct (parser route ThisRoute (rpc_args rpc)) as [args'|e]; simpl.
  - destruct (handler route) as [h|]; simpl.
    + destruct (h (ThisContext (rpc_ctx rpc)) args') as [[v|e|]|e]; simpl;
        intros H; apply elem_of_cons in H as [H | H];
        try (by injection H as -> ->);
        apply list_elem_of_singleton in H; discriminate H.
    + intros H. apply list_elem_of_singleton in H. by injection H as -> ->.
  - intros H. apply list_elem_of_singleton in H. by injection H as -> ->.
Qed.

(** The dispatcher calls the handler at most once, on an object that holds
    the context of the call under [ctx]. *)
Lemma dispatch_handler_call routes rpc this args :
  HandlerCalled this args ∈ fst (routeFromTransportInfallibly routes rpc) ->
  this = ThisContext (rpc_ctx rpc) /\ ctx this = rpc_ctx rpc.
Proof.
  unfold routeFromTransportInfallibly.
  destruct (get_property routes (rpc_id rpc)) as [route| |]; simpl;
    try (intros H; by apply elem_of_nil in H).
  destruct (parser route ThisRoute (rpc_args rpc)) as [args'|e]; simpl.
  - destruct (handler route) as [h|]; simpl.
    + destruct (h (ThisContext (rpc_ctx rpc)) args') as [[v|e|]|e]; simpl;
        intros H; apply elem_of_cons in H as [H | H]; try discriminate H;
        apply list_elem_of_singleton in H; by injection H as -> ->.
    + intros H. apply list_elem_of_singleton in H. discriminate H.
  - intros H. apply list_elem_of_singleton in H. discriminate H.
Qed.

(** A handler that throws before it returns a promise makes the
    dispatcher's own promise reject. *)
Lemma dispatch_handler_throws routes rpc route args h e :
  routes !! rpc_id rpc = Some route ->
  parser route ThisRoute (rpc_args rpc) = Returns args ->
  handler route = Some h ->
  h (ThisContext (rpc_ctx rpc)) args = Throws e ->
  snd (routeFromTransportInfallibly routes rpc) = Rejects e.
Proof.
  intros Hroute Hparse Hh Hthrow.
  unfold routeFromTransportInfallibly, get_property.
  by rewrite Hroute, Hparse, Hh, Hthrow.
Qed.

(** Whenever the dispatcher's promise resolves, it resolves to [{ ok }] or
    to an error object of one of the three kinds. *)
Lemma dispatch_resolves_shape routes rpc response :
  snd (routeFromTransportInfallibly routes rpc) = Resolves response ->
  (exists v, response = ok v)
  \/ exists kind payload,
       response = err kind payload
       /\ kind ∈ ["non existent route"; "argument parsing failed"; "handler errored"].
Proof.
  unfold routeFromTransportInfallibly.
  destruct (get_property routes (rpc_id rpc)) as [route| |]; simpl.
  - destruct (parser route ThisRoute (rpc_args rpc)) as [args'|e]; simpl.
    + destruct (handler route) as [h|]; simpl; [| discriminate].
      destruct (h (ThisContext (rpc_ctx rpc)) args') as [[v|e|]|e]; simpl;
        intros [= <-].
      * left. eauto.
      * right. eexists _, _. split; [done |]. set_solver.
    + intros [= <-]. right. eexists _, _. split; [done |]. set_solver.
  - intros [= <-]. right. eexists _, _. split; [done |]. set_solver.
  - intros [= <-]. right. eexists _, _. split; [done |]. set_solver.
Qed.

(** C1 (defect). The dispatcher does raise: when the handler of a registered
    route throws synchronously, the exception is thrown before [.then] and
    [.catch] are attached, and the promise of
    [routeFromTransportInfallibly] rejects with it instead of resolving to
    a handler-errored result. *)
Theorem dispatch_rejects_on_synchronous_throw :
  routeFromTransportInfallibly throwing_routes (mkRpc VUndefined "s r" [])
  = ([ParserCalled ThisRoute []; HandlerCalled (ThisContext VUndefined) []],
     Rejects (Error "boom")).
Proof. reflexivity. Qed.

(** C3 (defect). The parser receives the arguments of the call, but it is
    called as a method of the route entry, [route.parser(...rpc.args)], so
    its [this] is the entry and [this[ctx]] is [undefined], whatever context
    the call carries: a parser that accepts the context [admin] when bound
    to it rejects the call made with that context. *)
Theorem parser_not_bound_to_context :
  admin_only (ThisContext (VString "admin")) [VNull] = Returns [VNull]
  /\ routeFromTransportInfallibly guarded_routes
       (mkRpc (VString "admin") "s r" [VNull])
     = ([ParserCalled ThisRoute [VNull]],
        Resolves (err "argument parsing failed" (Error "unauthenticated"))).
Proof. split; reflexivity. Qed.

(** C5. When the parser of the registered route throws on the arguments of
    the call, the dispatcher resolves to an argument-parsing failure that
    carries the thrown value as it is, and the handler is not called. *)
Theorem parser_failure routes rpc route error :
  routes !! rpc_id rpc = Some route ->
  parser route ThisRoute (rpc_args rpc) = Throws error ->
  snd (routeFromTransportInfallibly routes rpc)
  = Resolves (VObject [("err", VObject [("argument parsing failed", error)])])
  /\ forall this args,
       HandlerCalled this args ∉ fst (routeFromTransportInfallibly routes rpc).
Proof.
  intros Hroute Hthrow.
  unfold routeFromTransportInfallibly, get_property.
  rewrite Hroute, Hthrow. simpl. split; [reflexivity |].
  intros this args Hin. apply list_elem_of_singleton in Hin. discriminate Hin.
Qed.

Lemma parser_failure_witness :
  snd (routeFromTransportInfallibly always_fail_routes
         (mkRpc VUndefined "scope route1" []))
  = Resolves (VObject [("err",
       VObject [("argument parsing failed", Error "always fail")])])
  /\ forall this args,
       HandlerCalled this args
       ∉ fst (routeFromTransportInfallibly always_fail_routes
                (mkRpc VUndefined "scope route1" [])).
Proof.
  apply (parser_failure always_fail_routes (mkRpc VUndefined "scope route1" [])
           (mkRoute (fun _ _ => Throws (Error "always fail"))
                    (Some (fun _ _ => Returns (Resolves (VString "route1")))))
           (Error "always fail")); reflexivity.
Defined.

(** C6. When the route is registered, its parser returns and its handler
    returns a promise: a rejection gives a handler-errored failure carrying
    the rejection value as it is, and a resolution gives [{ ok: v }] with
    the resolved value. *)
Theorem handler_completion routes rpc route args h :
  routes !! rpc_id rpc = Some route ->
  parser route ThisRoute (rpc_args rpc) = Returns args ->
  handler route = Some h ->
  (forall e, h (ThisContext (rpc_ctx rpc)) args = Returns (Rejects e) ->
     snd (routeFromTransportInfallibly routes rpc)
     = Resolves (VObject [("err", VObject [("handler errored", e)])]))
  /\ (forall v, h (ThisContext (rpc_ctx rpc)) args = Returns (Resolves v) ->
        snd (routeFromTransportInfallibly routes rpc)
        = Resolves (VObject [("ok", v)])).
Proof.
  intros Hroute Hparse Hh.
  unfold routeFromTransportInfallibly, get_property.
  rewrite Hroute, Hparse, Hh. simpl.
  split; intros x Hx; by rewrite Hx.
Qed.

Lemma handler_completion_witness :
  snd (routeFromTransportInfallibly rejecting_routes
         (mkRpc VUndefined "scope route1" []))
  = Resolves (VObject [("err",
       VObject [("handler errored", Error "always fail")])])
  /\ snd (routeFromTransportInfallibly scenario_routes
            (mkRpc VUndefined "s r" []))
     = Resolves (VObject [("ok", VNumber 42)]).
Proof.
  split.
  - apply (proj1 (handler_completion rejecting_routes
                    (mkRpc VUndefined "scope route1" [])
                    (mkRoute (fun _ args => Returns args)
                       (Some (fun _ _ => Returns (Rejects (Error "always fail")))))
                    [] (fun _ _ => Returns (Rejects (Error "always fail")))
                    eq_refl eq_refl eq_refl)).
    reflexivity.
  - apply (proj2 (handler_completion scenario_routes
                    (mkRpc VUndefined "s r" [])
                    (mkRoute (fun _ args => Returns args)
                       (Some (fun _ _ => Returns (Resolves (VNumber 42)))))
                    [] (fun _ _ => Returns (Resolves (VNumber 42)))
                    eq_refl eq_refl eq_refl)).
    reflexivity.
Defined.

(** C7 (defect). An identifier that is not registered is not always reported
    as a non existent route: [this.routes[rpc.id]] also finds the members
    the registry object inherits from [Object.prototype]; for [toString] the
    lookup is truthy, [route.parser] is [undefined], and the call resolves
    to an argument-parsing failure. *)
Theorem unregistered_inherited_name :
  scenario_routes !! "toString" = None
  /\ routeFromTransportInfallibly scenario_routes (mkRpc VUndefined "toString" [])
     = ([], Resolves (VObject [("err",
              VObject [("argument parsing failed",
                        TypeError "route.parser is not a function")])])).
Proof. split; reflexivity. Qed.

(** ** JSON round trip *)

Lemma append_assoc (a b c : string) : (a +:+ b) +:+ c = a +:+ (b +:+ c).
Proof. induction a as [|x a IH]; simpl; [reflexivity | by rewrite IH]. Qed.

Lemma append_cons c (a b : string) : String c a +:+ b = String c (a +:+ b).
Proof. reflexivity. Qed.

Lemma append_empty_l (a : string) : EmptyString +:+ a = a.
Proof. reflexivity. Qed.

Ltac normalize_text :=
  repeat (progress (rewrite ?append_assoc, ?append_cons, ?append_empty_l)).

Lemma length_append (a b : string) :
  String.length (a +:+ b) = String.length a + String.length b.
Proof. induction a as [|x a IH]; simpl; [reflexivity | by rewrite IH]. Qed.

Lemma length_cons c (a : string) : String.length (String c a) = S (String.length a).
Proof. reflexivity. Qed.

Lemma length_empty : String.length EmptyString = 0.
Proof. reflexivity. Qed.

Ltac measure_text H :=
  repeat (progress (rewrite ?length_append, ?length_cons, ?length_empty in H)).

Lemma value_ind' (P : value -> Prop) :
  P VUndefined -> P VNull -> (forall b, P (VBool b)) ->
  (forall n, P (VNumber n)) -> (forall s, P (VString s)) ->
  (forall elems, Forall P elems -> P (VArray elems)) ->
  (forall props, Forall (fun kv => P (snd kv)) props -> P (VObject props)) ->
  (forall bytes, P (VBlob bytes)) -> (forall name message, P (VError name message)) ->
  forall v, P v.
Proof.
  intros Hu Hn Hb Hz Hs Ha Ho Hbl He.
  fix IH 1. intros [ | | b | n | s | elems | props | bytes | name message].
  - exact Hu.
  - exact Hn.
  - exact (Hb b).
  - exact (Hz n).
  - exact (Hs s).
  - apply Ha.
    exact ((fix go (l : list value) : Forall P l :=
              match l with
              | [] => @List.Forall_nil _ P
              | x :: l' => @List.Forall_cons _ P x l' (IH x) (go l')
              end) elems).
  - apply Ho.
    exact ((fix go (l : list (string * value))
              : Forall (fun kv => P (snd kv)) l :=
              match l with
              | [] => @List.Forall_nil _ _
              | x :: l' => @List.Forall_cons _ _ x l' (IH (snd x)) (go l')
              end) props).
  - exact (Hbl bytes).
  - exact (He name message).
Qed.

(** *** Strings *)

Lemma parse_chars_quote_char c tail :
  parse_chars (quote_char c +:+ tail) = cons_char c (parse_chars tail).
Proof. destruct c as [[] [] [] [] [] [] [] []]; reflexivity. Qed.

Lemma parse_chars_quote_chars s rest :
  parse_chars (quote_chars s +:+ String dquote rest) = Found s rest.
Proof.
  induction s as [|c s IH]; simpl.
  - reflexivity.
  - by rewrite append_assoc, parse_chars_quote_char, IH.
Qed.

Lemma quote_append s tail :
  quote s +:+ tail = String dquote (quote_chars s +:+ String dquote tail).
Proof. unfold quote. simpl. by rewrite append_assoc. Qed.

(** *** Numbers *)

Lemma read_digits_string_of_uint d rest :
  match rest with String c _ => is_digit c = false | EmptyString => True end ->
  read_digits (NilEmpty.string_of_uint d +:+ rest) = (d, rest).
Proof.
  intros Hrest. induction d; simpl; try (by rewrite IHd).
  destruct rest as [|c r]; simpl; [reflexivity | by rewrite Hrest].
Qed.

Lemma to_uint_head p :
  exists c t, NilEmpty.string_of_uint (Pos.to_uint p) = String c t
              /\ is_digit c = true /\ Ascii.eqb c "-" = false.
Proof.
  pose proof (DecimalPos.Unsigned.to_uint_nonnil p) as Hnil.
  destruct (Pos.to_uint p); [done | ..]; simpl; eauto.
Qed.

Lemma to_uint_no_leading_zero p : leading_zero (Pos.to_uint p) = false.
Proof.
  destruct (Pos.to_uint p) as [|d| | | | | | | | |] eqn:E; try reflexivity.
  exfalso.
  assert (Hnorm : unorm (Pos.to_uint p) = Pos.to_uint p).
  { rewrite <- (DecimalPos.Unsigned.to_of (Pos.to_uint p)).
    by rewrite DecimalPos.Unsigned.of_to. }
  rewrite E in Hnorm. unfold unorm in Hnorm.
  destruct (nzhead (D0 d)) eqn:Hz;
    try (by apply (DecimalFacts.nzhead_nonzero (D0 d) d); rewrite Hz, Hnorm).
  apply (DecimalPos.Unsigned.to_uint_nonzero p). rewrite E. by rewrite <- Hnorm.
Qed.

Lemma terminal_not_digit rest :
  terminal rest = true ->
  match rest with String c _ => is_digit c = false | EmptyString => True end.
Proof.
  destruct rest as [|c r]; [done |]. simpl.
  destruct c as [[] [] [] [] [] [] [] []]; simpl; done.
Qed.

Lemma terminal_not_continued rest :
  terminal rest = true -> continues_number rest = false.
Proof.
  destruct rest as [|c r]; [done |]. simpl.
  destruct c as [[] [] [] [] [] [] [] []]; simpl; done.
Qed.

Lemma read_sign_unsigned d rest :
  d <> Nil ->
  read_sign (NilEmpty.string_of_uint d +:+ rest)
  = (false, NilEmpty.string_of_uint d +:+ rest).
Proof. destruct d; done. Qed.

Lemma number_token_to_uint negative p rest :
  continues_number rest = false ->
  (Z.pos p <=? MAX_SAFE_INTEGER)%Z = true ->
  number_token negative (Pos.to_uint p) rest
  = Found (VNumber (if negative then Z.neg p else Z.pos p)) rest.
Proof.
  intros Hcont Hsafe. unfold number_token.
  rewrite to_uint_no_leading_zero, Hcont.
  unfold N.of_uint. rewrite DecimalPos.Unsigned.of_to.
  change (Z.of_N (N.pos p)) with (Z.pos p). rewrite Hsafe.
  change (Z.pos p =? 0)%Z with false. rewrite andb_false_r.
  pose proof (DecimalPos.Unsigned.to_uint_nonnil p) as Hnil.
  destruct (Pos.to_uint p); [done | ..]; by destruct negative.
Qed.

Lemma parse_number_to_string n rest :
  terminal rest = true ->
  (Z.abs n <=? MAX_SAFE_INTEGER)%Z = true ->
  parse_number (number_to_string n +:+ rest) = Found (VNumber n) rest.
Proof.
  intros Hterm Hsafe.
  pose proof (terminal_not_digit rest Hterm) as Hdig.
  pose proof (terminal_not_continued rest Hterm) as Hcont.
  unfold parse_number, number_to_string.
  destruct n as [|p|p]; unfold Z.to_int, NilEmpty.string_of_int.
  - rewrite read_sign_unsigned by done.
    rewrite read_digits_string_of_uint by done.
    unfold number_token. by rewrite Hcont.
  - rewrite read_sign_unsigned by apply DecimalPos.Unsigned.to_uint_nonnil.
    rewrite read_digits_string_of_uint by done.
    by apply number_token_to_uint.
  - change (read_sign _)
      with (true, NilEmpty.string_of_uint (Pos.to_uint p) +:+ rest).
    cbv beta iota.
    rewrite read_digits_string_of_uint by done.
    by apply number_token_to_uint.
Qed.

Lemma number_to_string_head n :
  exists c t, number_to_string n = String c t /\ number_start c = true.
Proof.
  unfold number_to_string, number_start.
  destruct n as [|p|p]; unfold Z.to_int, NilEmpty.string_of_int.
  - by eexists _, _.
  - destruct (to_uint_head p) as (c & t & Hhead & Hdigit & _).
    exists c, t. by rewrite Hdigit.
  - by eexists _, _.
Qed.

(** *** Values *)

Lemma number_start_head c :
  number_start c = true ->
  is_ws c = false /\ Ascii.eqb "]" c = false /\ Ascii.eqb "}" c = false.
Proof. destruct c as [[] [] [] [] [] [] [] []]; simpl; done. Qed.

Lemma stringify_head v t :
  JSON_stringify v = Some t ->
  exists c t', t = String c t' /\ is_ws c = false
               /\ Ascii.eqb "]" c = false /\ Ascii.eqb "}" c = false.
Proof.
  destruct v as [ | | [] | n | s | elems | props | bytes | name message];
    simpl; intros [= <-]; try (by eexists _, _).
  destruct (number_to_string_head n) as (c & t' & -> & Hstart).
  exists c, t'. split; [done |]. by apply number_start_head.
Qed.

Lemma representable_stringify v :
  representable v = true -> exists t, JSON_stringify v = Some t.
Proof.
  destruct v as [ | | [] | n | s | elems | props | bytes | name message];
    simpl; intros H; try discriminate H; eauto.
Qed.

Lemma concat_head sep c x' xs :
  exists y, String.concat sep (String c x' :: xs) = String c y.
Proof. destruct xs; simpl; eauto. Qed.

Lemma skip_ws_head c r : is_ws c = false -> skip_ws (String c r) = String c r.
Proof. intros H. simpl. by rewrite H. Qed.

Lemma strip_prefix_miss a c r :
  Ascii.eqb a c = false -> strip_prefix (String a EmptyString) (String c r) = None.
Proof. intros H. simpl. by rewrite H. Qed.

Lemma parse_value_number fuel c r :
  number_start c = true ->
  parse_value (S fuel) (String c r) = parse_number (String c r).
Proof.
  intros H. destruct (number_start_head c H) as (Hws & _).
  simpl. by rewrite Hws, H.
Qed.

Lemma parse_value_string fuel r :
  parse_value (S fuel) (String dquote r)
  = match parse_chars r with
    | Found str r' => Found (VString str) r'
    | Invalid => Invalid
    | Outside => Outside
    end.
Proof. reflexivity. Qed.

Lemma parse_value_array fuel r :
  parse_value (S fuel) (String "[" r)
  = match strip_prefix "]" (skip_ws r) with
    | Some r' => Found (VArray []) r'
    | None =>
        match parse_elements fuel r with
        | Found vs r' => Found (VArray vs) r'
        | Invalid => Invalid
        | Outside => Outside
        end
    end.
Proof. reflexivity. Qed.

Lemma parse_value_object fuel r :
  parse_value (S fuel) (String "{" r)
  = match strip_prefix "}" (skip_ws r) with
    | Some r' => Found (VObject []) r'
    | None =>
        match parse_members fuel r with
        | Found ms r' => Found (VObject (object_of_members ms)) r'
        | Invalid => Invalid
        | Outside => Outside
        end
    end.
Proof. reflexivity. Qed.

Lemma parse_elements_S fuel s :
  parse_elements (S fuel) s
  = match parse_value fuel s with
    | Invalid => Invalid
    | Outside => Outside
    | Found v r =>
        match skip_ws r with
        | String c r' =>
            if Ascii.eqb c "]" then Found [v] r'
            else if Ascii.eqb c "," then
              match parse_elements fuel r' with
              | Found vs r'' => Found (v :: vs) r''
              | Invalid => Invalid
              | Outside => Outside
              end
            else Invalid
        | EmptyString => Invalid
        end
    end.
Proof. reflexivity. Qed.

Lemma parse_members_S fuel k tail :
  parse_members (S fuel) (quote k +:+ String ":" tail)
  = match parse_value fuel tail with
    | Invalid => Invalid
    | Outside => Outside
    | Found v r =>
        match skip_ws r with
        | String c r' =>
            if Ascii.eqb c "}" then Found [(k, v)] r'
            else if Ascii.eqb c "," then
              match parse_members fuel r' with
              | Found ms r'' => Found ((k, v) :: ms) r''
              | Invalid => Invalid
              | Outside => Outside
              end
            else Invalid
        | EmptyString => Invalid
        end
    end.
Proof.
  rewrite quote_append.
  change (parse_members (S fuel) (String dquote ?x))
    with (match parse_chars x with
          | Invalid => Invalid
          | Outside => Outside
          | Found k r1 =>
              match skip_ws r1 with
              | String colon r2 =>
                  if Ascii.eqb colon ":" then
                    match parse_value fuel r2 with
                    | Invalid => Invalid
                    | Outside => Outside
                    | Found v r =>
                        match skip_ws r with
                        | String c r' =>
                            if Ascii.eqb c "}" then Found [(k, v)] r'
                            else if Ascii.eqb c "," then
                              match parse_members fuel r' with
                              | Found ms r'' => Found ((k, v) :: ms) r''
                              | Invalid => Invalid
                              | Outside => Outside
                              end
                            else Invalid
                        | EmptyString => Invalid
                        end
                    end
                  else Invalid
              | EmptyString => Invalid
              end
          end).
  by rewrite parse_chars_quote_chars.
Qed.

Lemma parse_elements_back elems :
  elems <> [] ->
  Forall parses_back elems ->
  forallb representable elems = true ->
  forall fuel rest,
    String.length (String.concat "," (map element_text elems)) + 1 < fuel ->
    parse_elements fuel
      (String.concat "," (map element_text elems) +:+ String "]" rest)
    = Found elems rest.
Proof.
  induction elems as [|e l IH]; [done |].
  intros _ Hall Hrep fuel rest Hfuel.
  apply Forall_cons in Hall as [He Hl].
  simpl in Hrep. apply andb_true_iff in Hrep as [Hre Hrl].
  destruct (representable_stringify e Hre) as [t Ht].
  destruct fuel as [|fuel]; [lia |].
  rewrite parse_elements_S.
  assert (Het : element_text e = t) by (unfold element_text; by rewrite Ht).
  destruct l as [|e' l'].
  - simpl in *. rewrite Het in *.
    rewrite (He Hre t Ht fuel (String "]" rest)) by (done || lia).
    reflexivity.
  - remember (e' :: l') as l eqn:El.
    change (String.concat "," (map element_text (e :: l)))
      with (match map element_text l with
            | [] => element_text e
            | _ => element_text e +:+ "," +:+ String.concat "," (map element_text l)
            end) in *.
    rewrite El in *. simpl map in *. cbv iota in *. rewrite <- El in *.
    rewrite Het in *.
    rewrite !length_append in Hfuel. simpl in Hfuel.
    rewrite !append_assoc. simpl.
    rewrite (He Hre t Ht fuel) by (done || lia).
    simpl.
    rewrite IH; [done | by subst | done | done | simpl in *; lia].
Qed.

Lemma omap_member_text props :
  forallb (fun kv => representable (snd kv)) props = true ->
  omap (fun kv => (fun t => quote (fst kv) +:+ ":" +:+ t)
                    <$> JSON_stringify (snd kv)) props
  = map member_text props.
Proof.
  induction props as [|[k v] props IH]; simpl; [done |].
  intros H. apply andb_true_iff in H as [Hv Hprops].
  destruct (representable_stringify v Hv) as [t Ht].
  unfold member_text at 1, element_text. simpl. rewrite Ht. simpl.
  f_equal. exact (IH Hprops).
Qed.

Lemma parse_members_back props :
  props <> [] ->
  Forall (fun kv => parses_back (snd kv)) props ->
  forallb (fun kv => representable (snd kv)) props = true ->
  forall fuel rest,
    String.length (String.concat "," (map member_text props)) + 1 < fuel ->
    parse_members fuel
      (String.concat "," (map member_text props) +:+ String "}" rest)
    = Found props rest.
Proof.
  induction props as [|[k v] l IH]; [done |].
  intros _ Hall Hrep fuel rest Hfuel.
  apply Forall_cons in Hall as [Hv Hl]. simpl in Hv.
  simpl in Hrep. apply andb_true_iff in Hrep as [Hrv Hrl].
  destruct (representable_stringify v Hrv) as [t Ht].
  destruct fuel as [|fuel]; [lia |].
  assert (Hkv : member_text (k, v) = quote k +:+ String ":" t).
  { unfold member_text, element_text. simpl. by rewrite Ht. }
  destruct l as [|kv' l'].
  - change (String.concat "," (map member_text [(k, v)]))
      with (member_text (k, v)) in *.
    rewrite Hkv in *.
    rewrite length_append in Hfuel. simpl in Hfuel.
    rewrite append_assoc, append_cons, parse_members_S.
    rewrite (Hv Hrv t Ht fuel (String "}" rest)) by (done || lia).
    reflexivity.
  - remember (kv' :: l') as l eqn:El.
    change (String.concat "," (map member_text ((k, v) :: l)))
      with (match map member_text l with
            | [] => member_text (k, v)
            | _ => member_text (k, v) +:+ "," +:+ String.concat "," (map member_text l)
            end) in *.
    rewrite El in *. simpl map in *. cbv iota in *. rewrite <- El in *.
    rewrite Hkv in *.
    rewrite !length_append in Hfuel. simpl in Hfuel.
    rewrite !append_assoc, !append_cons, append_empty_l, parse_members_S.
    rewrite (Hv Hrv t Ht fuel) by (done || lia).
    simpl.
    rewrite IH; [done | by subst | done | done | simpl in *; lia].
Qed.

Lemma set_prop_fresh k v props :
  k ∉ map fst props -> set_prop k v props = (props ++ [(k, v)])%list.
Proof.
  induction props as [|[k' v'] props IH]; simpl; [done |].
  intros Hk. apply not_elem_of_cons in Hk as [Hne Hk].
  destruct (String.eqb_spec k k') as [-> | _]; [done |].
  by rewrite IH.
Qed.

Lemma object_of_members_acc members acc :
  NoDup (map fst (acc ++ members)%list) ->
  fold_left (fun props kv => set_prop (fst kv) (snd kv) props) members acc
  = (acc ++ members)%list.
Proof.
  revert acc. induction members as [|[k v] members IH]; intros acc Hnd; simpl.
  - by rewrite app_nil_r.
  - rewrite set_prop_fresh.
    + rewrite IH; [by rewrite <- app_assoc |].
      by rewrite <- app_assoc.
    + rewrite map_app in Hnd. apply NoDup_app in Hnd as (_ & Hdisj & _).
      intros Hin. apply (Hdisj k Hin). by left.
Qed.

Lemma object_of_members_NoDup props :
  NoDup (map fst props) -> object_of_members props = props.
Proof. intros H. unfold object_of_members. by rewrite object_of_members_acc. Qed.

Lemma append_empty_r (s : string) : s +:+ EmptyString = s.
Proof. induction s as [|c s IH]; simpl; [done | by rewrite IH]. Qed.

Lemma parse_value_back v : parses_back v.
Proof.
  induction v as [ | | b | n | s | elems IH | props IH | bytes | name message]
    using value_ind'; intros Hrep t Ht fuel rest Hterm Hfuel;
    try discriminate Hrep;
    (destruct fuel as [|fuel]; [lia |]); simpl in Ht; try injection Ht as <-.
  - reflexivity.
  - destruct b; injection Ht as <-; reflexivity.
  - destruct (number_to_string_head n) as (c & t' & Hhead & Hstart).
    rewrite Hhead, append_cons, parse_value_number by done.
    rewrite <- append_cons, <- Hhead. by apply parse_number_to_string.
  - rewrite quote_append, parse_value_string.
    by rewrite parse_chars_quote_chars.
  - simpl in Hrep. normalize_text. rewrite parse_value_array.
    fold (element_text) in *.
    change (map (fun e => default "null" (JSON_stringify e)) elems)
      with (map element_text elems) in *.
    destruct elems as [|e l].
    + reflexivity.
    + assert (Hhead : exists c y,
                String.concat "," (map element_text (e :: l)) = String c y
                /\ is_ws c = false /\ Ascii.eqb "]" c = false).
      { simpl in Hrep. apply andb_true_iff in Hrep as [Hre _].
        destruct (representable_stringify e Hre) as [te Hte].
        destruct (stringify_head e te Hte) as (c & t' & -> & Hws & Hb & _).
        destruct (concat_head "," c t' (map element_text l)) as [y Hy].
        exists c, y. split; [| done]. rewrite <- Hy.
        change (map element_text (e :: l))
          with (element_text e :: map element_text l).
        unfold element_text at 1. by rewrite Hte. }
      destruct Hhead as (c & y & Hc & Hws & Hb).
      rewrite parse_elements_back.
      * rewrite Hc, append_cons, skip_ws_head by done.
        by rewrite strip_prefix_miss.
      * done.
      * done.
      * done.
      * measure_text Hfuel. lia.
  - simpl in Hrep. apply andb_true_iff in Hrep as [Hnd Hrep].
    apply bool_decide_eq_true in Hnd.
    rewrite omap_member_text in * by done.
    normalize_text. rewrite parse_value_object.
    destruct props as [|[k v] l].
    + reflexivity.
    + assert (Hhead : exists y,
                String.concat "," (map member_text ((k, v) :: l))
                = String dquote y).
      { change (map member_text ((k, v) :: l))
          with (member_text (k, v) :: map member_text l).
        unfold member_text at 1, quote. rewrite append_cons.
        apply concat_head. }
      destruct Hhead as (y & Hc).
      rewrite parse_members_back.
      * rewrite Hc, append_cons, skip_ws_head by done.
        rewrite strip_prefix_miss by done.
        by rewrite object_of_members_NoDup.
      * done.
      * done.
      * done.
      * measure_text Hfuel. lia.
Qed.

(** [JSON.parse(JSON.stringify(v))] is [v] for a representable [v]. *)
Lemma JSON_parse_stringify v t :
  representable v = true ->
  JSON_stringify v = Some t ->
  JSON_parse t = Parsed v.
Proof.
  intros Hrep Ht. unfold JSON_parse.
  rewrite <- (append_empty_r t) at 2.
  rewrite (parse_value_back v Hrep t Ht) by (done || lia).
  reflexivity.
Qed.

(** The text of a serialized value is never the empty string. *)
Lemma JSON_stringify_nonempty v t : JSON_stringify v = Some t -> t <> EmptyString.
Proof.
  intros Ht. destruct (stringify_head v t Ht) as (c & t' & -> & _). done.
Qed.

(** ** The wire encoding *)

Lemma index_key_inj i j : index_key i = index_key j -> i = j.
Proof.
  unfold index_key. intros H.
  apply (f_equal NilEmpty.uint_of_string) in H.
  rewrite !NilEmpty.usu in H. injection H as H.
  by apply DecimalNat.Unsigned.to_uint_inj.
Qed.

Lemma named_iff name entry : named name entry = true <-> fst entry = name.
Proof. unfold named. apply String.eqb_eq. Qed.

Lemma FormData_set_fresh name v body :
  name ∉ map fst body -> FormData_set name v body = (body ++ [(name, v)])%list.
Proof.
  induction body as [|entry body IH]; simpl; [done |].
  intros Hfresh. apply not_elem_of_cons in Hfresh as [Hne Hfresh].
  destruct (named name entry) eqn:E.
  - apply named_iff in E. by subst.
  - by rewrite IH.
Qed.

Lemma FormData_get_app_fresh name pre body :
  name ∉ map fst pre ->
  FormData_get name (pre ++ body)%list = FormData_get name body.
Proof.
  induction pre as [|entry pre IH]; simpl; [done |].
  intros Hfresh. apply not_elem_of_cons in Hfresh as [Hne Hfresh].
  destruct (named name entry) eqn:E.
  - apply named_iff in E. by subst.
  - by apply IH.
Qed.

Lemma FormData_get_head name v body :
  FormData_get name ((name, v) :: body) = Some v.
Proof. simpl. unfold named. simpl. by rewrite String.eqb_refl. Qed.

Lemma fresh_after i (pre : FormData) (v : FormDataEntryValue) :
  (forall j, i <= j -> index_key j ∉ map fst pre) ->
  forall j, S i <= j -> index_key j ∉ map fst (pre ++ [(index_key i, v)])%list.
Proof.
  intros Hpre j Hj. rewrite map_app. simpl.
  intros Hin. apply elem_of_app in Hin as [Hin | Hin].
  - apply (Hpre j); [lia | done].
  - apply list_elem_of_singleton in Hin. apply index_key_inj in Hin. lia.
Qed.

(** The send loop appends one part per argument, keyed by its position, and
    one tag per argument. *)
Lemma encode_args_parts args : forall i body argtype,
  (forall j, i <= j -> index_key j ∉ map fst body) ->
  encode_args args i body argtype
  = ((body ++ parts i args)%list, (argtype ++ map tag_of args)%list).
Proof.
  induction args as [|arg args IH]; intros i body argtype Hfresh; simpl.
  - by rewrite !app_nil_r.
  - rewrite FormData_set_fresh by (apply Hfresh; lia).
    rewrite IH by (by apply fresh_after).
    by rewrite <- !app_assoc.
Qed.

Lemma split_join_tags args :
  list_ascii_of_string (String.concat EmptyString (map tag_of args))
  = map tag_char args.
Proof.
  induction args as [|arg args IH]; [reflexivity |].
  destruct args as [|arg' args'].
  - by destruct arg.
  - change (String.concat EmptyString (map tag_of (arg :: arg' :: args')))
      with (tag_of arg +:+ EmptyString
            +:+ String.concat EmptyString (map tag_of (arg' :: args'))).
    change (map tag_char (arg :: arg' :: args'))
      with (tag_char arg :: map tag_char (arg' :: args')).
    rewrite <- IH. by destruct arg.
Qed.

Lemma decode_transportable arg :
  transportable arg = true ->
  falsy (part_of arg) = false
  /\ (if Ascii.eqb (tag_char arg) "b"
      then Parsed (value_of_entry (part_of arg))
      else JSON_parse (entry_toString (part_of arg))) = Parsed arg.
Proof.
  intros H.
  destruct arg as [ | | b | n | s | elems | props | bytes | name message];
    try discriminate H; try (split; reflexivity);
    match type of H with
    | transportable ?a = true => change (representable a = true) in H
    end;
    destruct (representable_stringify _ H) as [t Ht];
    pose proof (JSON_stringify_nonempty _ _ Ht) as Hne;
    pose proof (JSON_parse_stringify _ _ H Ht) as Hparse;
    unfold part_of; rewrite Ht; simpl; (split; [by destruct t | done]).
Qed.

(** The receive loop, run on the parts and tags the send loop produced,
    pushes the arguments back in order. *)
Lemma decode_args_parts id argtype args : forall i pre acc,
  forallb transportable args = true ->
  (forall j, i <= j -> index_key j ∉ map fst pre) ->
  decode_args id argtype (pre ++ parts i args)%list (map tag_char args) i acc
  = Decoded (acc ++ args)%list.
Proof.
  induction args as [|arg args IH]; intros i pre acc Hall Hfresh.
  - simpl. by rewrite app_nil_r.
  - simpl in Hall. apply andb_true_iff in Hall as [Harg Hall].
    destruct (decode_transportable arg Harg) as [Hfalsy Hdecode].
    change (decode_args id argtype (pre ++ parts i (arg :: args))%list
              (map tag_char (arg :: args)) i acc)
      with (if negb (Ascii.eqb (tag_char arg) "b")
               && negb (Ascii.eqb (tag_char arg) "j")
            then Refused (unknown_argument_type id argtype)
            else
              match FormData_get (index_key i)
                      (pre ++ (index_key i, part_of arg) :: parts (S i) args)%list with
              | None => Refused (missing_argument id (tag_char arg) i)
              | Some data =>
                  if falsy data then Refused (missing_argument id (tag_char arg) i)
                  else if Ascii.eqb (tag_char arg) "b" then
                    decode_args id argtype
                      (pre ++ (index_key i, part_of arg) :: parts (S i) args)%list
                      (map tag_char args) (S i)
                      (acc ++ [value_of_entry data])%list
                  else
                    match JSON_parse (entry_toString data) with
                    | Parsed v =>
                        decode_args id argtype
                          (pre ++ (index_key i, part_of arg) :: parts (S i) args)%list
                          (map tag_char args) (S i) (acc ++ [v])%list
                    | Malformed => Raised SyntaxError
                    | Unrepresented => Undecoded
                    end
              end).
    rewrite FormData_get_app_fresh by (apply Hfresh; lia).
    rewrite FormData_get_head, Hfalsy.
    assert (Htag : negb (Ascii.eqb (tag_char arg) "b")
                   && negb (Ascii.eqb (tag_char arg) "j") = false)
      by (by destruct arg).
    rewrite Htag.
    rewrite (cons_middle _ pre), app_assoc.
    destruct (Ascii.eqb (tag_char arg) "b").
    + injection Hdecode as ->.
      rewrite IH by (done || by apply fresh_after).
      by rewrite <- app_assoc.
    + rewrite Hdecode.
      rewrite IH by (done || by apply fresh_after).
      by rewrite <- app_assoc.
Qed.

(** The two loops are inverse to each other: the send loop tags every
    argument ([b] for a [Blob], [j] otherwise) and stores it under its
    position ([Blob]s as they are, other values through [JSON.stringify]);
    the receive loop, run on those parts with the joined tag string, gives
    back the argument list. *)
Lemma loops_round_trip id args body argtype :
  forallb transportable args = true ->
  encode_args args 0 [] [] = (body, argtype) ->
  argtype = map tag_of args
  /\ decode_args id (String.concat EmptyString argtype) body
       (list_ascii_of_string (String.concat EmptyString argtype)) 0 []
     = Decoded args.
Proof.
  intros Hall Henc.
  rewrite encode_args_parts in Henc by (intros j _ Hin; by apply elem_of_nil in Hin).
  injection Henc as <- <-. split; [done |].
  rewrite split_join_tags.
  apply (decode_args_parts id _ args 0 [] []); [done |].
  intros j _ Hin. by apply elem_of_nil in Hin.
Qed.

Lemma request_init_eq rpc :
  request_init rpc
  = {| init_headers :=
         [ ("x-simplycall-id", rpc_id rpc);
           ("x-simplycall-argtype",
            String.concat EmptyString (map tag_of (rpc_args rpc)));
           ("Content-Type", "multipart/form-data") ];
       init_method := "POST";
       init_body := parts 0 (rpc_args rpc) |}.
Proof.
  unfold request_init.
  by rewrite encode_args_parts by (intros j _ Hin; by apply elem_of_nil in Hin).
Qed.

(** C8 (defect). The arguments encoded by the send side never reach the
    receive loop.  The client hands [fetch] a [Content-Type] header of its
    own, [multipart/form-data] without a boundary, so [fetch] does not add
    the header that names the boundary of the body; on the server
    [request.formData()] rejects, and [onRequestInfallibly] answers every
    call, whatever its arguments and whatever the dispatcher, with the
    error object of that rejection: nothing is decoded. *)
Theorem sent_request_unreadable boundary handler rpc context :
  Headers_get "Content-Type"
    (request_headers (deliver boundary (request_init rpc)))
  = Some "multipart/form-data"
  /\ request_formData (deliver boundary (request_init rpc))
     = Rejects (TypeError "Failed to parse body as FormData.")
  /\ onRequestInfallibly handler (deliver boundary (request_init rpc)) context
     = Resolves (Failure (VObject
         [("err", TypeError "Failed to parse body as FormData.")])).
Proof. rewrite request_init_eq. repeat split. Qed.

(** The call of the scenario with the argument [1]. *)
Example one_argument_unreadable boundary :
  onRequestInfallibly (router_handler scenario_routes)
    (deliver boundary (request_init (mkRpc VUndefined "s r" [VNumber 1]))) VNull
  = Resolves (Failure (VObject
      [("err", VError "TypeError" "Failed to parse body as FormData.")])).
Proof. reflexivity. Qed.

Lemma boundary_of_generated boundary :
  boundary_of ("multipart/form-data; boundary=" +:+ boundary) = Some boundary.
Proof. reflexivity. Qed.

(** With the [Content-Type] left to [fetch], send side and receive side
    compose: the dispatcher is called with the identifier and the arguments
    of the client's call, and with the context the server supplies. *)
Lemma request_reaches_dispatcher boundary handler rpc context :
  forallb transportable (rpc_args rpc) = true ->
  onRequestInfallibly handler
    (deliver boundary (boundary_left_to_fetch (request_init rpc))) context
  = respond (handler (mkRpc context (rpc_id rpc) (rpc_args rpc))).
Proof.
  intros Hall. rewrite request_init_eq.
  unfold onRequestInfallibly, deliver, read_formData, sent_headers,
    boundary_left_to_fetch.
  cbn [request_headers request_formData init_headers init_body init_method
       Headers_get List.filter String.eqb Ascii.eqb Bool.eqb negb fst app mbind
       option_bind].
  rewrite boundary_of_generated, String.eqb_refl.
  rewrite split_join_tags.
  by rewrite (decode_args_parts (rpc_id rpc) _ (rpc_args rpc) 0 [] [] Hall)
    by (intros j _ Hin; by apply elem_of_nil in Hin).
Qed.

(** ** The client side *)

(** C9. The request handed to [fetch] is built from the identifier and the
    arguments alone: two calls that differ only in their context hand the
    same headers, method and body to [fetch], at the same URL, and what the
    call settles to does not depend on the context either. *)
Theorem request_independent_of_context c1 c2 id args :
  request_init (mkRpc c1 id args) = request_init (mkRpc c2 id args)
  /\ forall config_url fetch,
       sendThroughTransportFallibly config_url fetch (mkRpc c1 id args)
       = sendThroughTransportFallibly config_url fetch (mkRpc c2 id args).
Proof. split; reflexivity. Qed.

(** Whatever the server answers, a call that resolves resolves to
    [undefined]. *)
Lemma send_resolves_undefined config_url fetch rpc v :
  sendThroughTransportFallibly config_url fetch rpc = Resolves v ->
  v = VUndefined.
Proof.
  unfold sendThroughTransportFallibly.
  destruct (fetch config_url (request_init rpc)) as [result|e|];
    [| discriminate | discriminate].
  destruct (decode_response (rpc_id rpc) result); [| discriminate | discriminate].
  by intros [= <-].
Qed.

(** C2 (defect). The decoded response is computed and then dropped: the
    callback given to [.then] decodes the answer to 42, but
    [sendThroughTransportFallibly] awaits the chain without returning it,
    so the call resolves to [undefined]. *)
Theorem send_discards_response :
  decode_response "s r" answer_42 = Resolves (VNumber 42)
  /\ sendThroughTransportFallibly "/rpc" (fun _ _ => Resolves answer_42)
       (mkRpc VUndefined "s r" [])
     = Resolves VUndefined.
Proof. split; vm_compute; reflexivity. Qed.

(** ** The server side *)





Lemma length_list_ascii_of_string s :
  length (list_ascii_of_string s) = String.length s.
Proof. induction s as [|c s IH]; simpl; [done | by rewrite IH]. Qed.




Example crowded_request_reply :
  onRequestInfallibly
    (fun rpc => Resolves (VObject [("ok", VArray (rpc_args rpc))]))
    crowded_request VNull
  = Resolves (Success [("0", EntryString "[1]")]
                [("x-simplycall-argtype", "j");
                 ("Content-Type", "multipart/form-data")]).
Proof. vm_compute. reflexivity. Qed.

(** * Further properties *)

(** ** Registration *)

(** A batch of names that are new to the registry and to each other
    registers completely: the call returns, every entry is stored with its
    parser (the identity for "assume typesafe") and with what
    [handlers[name]] gives for its name, and no other identifier changes. *)
Theorem conformArgumentsThrough_registers scope handlers batch routes :
  NoDup (map fst batch) ->
  (forall n, n ∈ map fst batch -> routes !! route_id scope n = None) ->
  exists routes',
    conformArgumentsThrough scope handlers batch routes = (routes', Returns tt)
    /\ (forall n d, (n, d) ∈ batch ->
          routes' !! route_id scope n
          = Some (mkRoute (resolve_parser d) (get_handler handlers n)))
    /\ (forall k, (forall n, n ∈ map fst batch -> k <> route_id scope n) ->
          routes' !! k = routes !! k).
Proof.
  intros Hnd Hfresh. exists (registered scope handlers batch routes).
  split; [| split].
  - rewrite <- (app_nil_r batch) at 1.
    by rewrite conformArgumentsThrough_fresh.
  - intros n d Hin. by apply registered_lookup_new.
  - intros k Hk. by apply registered_lookup_old.
Qed.

Lemma conformArgumentsThrough_registers_witness :
  exists routes',
    conformArgumentsThrough "scope" two_handlers
      [("route1", AssumeTypesafe); ("route2", AssumeTypesafe)] ∅
    = (routes', Returns tt)
    /\ (forall n d, (n, d) ∈ [("route1", AssumeTypesafe); ("route2", AssumeTypesafe)] ->
          routes' !! route_id "scope" n
          = Some (mkRoute (resolve_parser d) (get_handler two_handlers n)))
    /\ (forall k,
          (forall n, n ∈ map fst [("route1", AssumeTypesafe); ("route2", AssumeTypesafe)] ->
             k <> route_id "scope" n) ->
          routes' !! k = (∅ : gmap string Route) !! k).
Proof.
  apply (conformArgumentsThrough_registers "scope" two_handlers
           [("route1", AssumeTypesafe); ("route2", AssumeTypesafe)] ∅).
  - apply (bool_decide_unpack _). vm_compute. exact I.
  - intros n _. reflexivity.
Defined.

Lemma has_property_false routes k :
  has_property routes k = false -> routes !! k = None.
Proof.
  unfold has_property, get_property.
  destruct (routes !! k); [discriminate | done].
Qed.

(** The registry is write-once: whatever a call to
    [conformArgumentsThrough] does, and whether it returns or throws, a
    route that was registered before is still there, unchanged. *)
Theorem conformArgumentsThrough_keeps scope handlers parsers routes k r :
  routes !! k = Some r ->
  fst (conformArgumentsThrough scope handlers parsers routes) !! k = Some r.
Proof.
  revert routes. induction parsers as [|[name decl] parsers IH];
    intros routes Hk; simpl; [done |].
  destruct (has_property routes (route_id scope name)) eqn:E; [done |].
  apply IH. rewrite lookup_insert_ne; [done |].
  intros <-. apply has_property_false in E. congruence.
Qed.

Lemma conformArgumentsThrough_keeps_witness :
  fst (conformArgumentsThrough "s" two_handlers
         [("route1", CustomParser first_only); ("r", CustomParser first_only);
          ("route2", AssumeTypesafe)] scenario_routes) !! "s r"
  = Some (mkRoute (fun _ args => Returns args)
            (Some (fun _ _ => Returns (Resolves (VNumber 42))))).
Proof.
  apply (conformArgumentsThrough_keeps "s" two_handlers
           [("route1", CustomParser first_only); ("r", CustomParser first_only);
            ("route2", AssumeTypesafe)] scenario_routes "s r").
  reflexivity.
Defined.

(** Scope and name are joined by one space and nothing else tells them
    apart: the pair (s m, n) and the pair (s, m n) have the same
    identifier, so registering the second after the first throws the
    declared-twice error although the pairs differ. *)
Theorem scope_name_collision s m n handlers1 handlers2 d1 d2 routes :
  routes !! route_id (s +:+ " " +:+ m) n = None ->
  route_id (s +:+ " " +:+ m) n = route_id s (m +:+ " " +:+ n)
  /\ snd (conformArgumentsThrough s handlers2 [(m +:+ " " +:+ n, d2)]
            (fst (conformArgumentsThrough (s +:+ " " +:+ m) handlers1
                    [(n, d1)] routes)))
     = Throws (Error ("Route [" +:+ route_id s (m +:+ " " +:+ n)
                      +:+ "] was declared twice and is not unique.")).
Proof.
  intros Hfresh.
  assert (Hid : route_id (s +:+ " " +:+ m) n = route_id s (m +:+ " " +:+ n)).
  { unfold route_id. by rewrite !append_assoc. }
  split; [done |].
  assert (Hfirst :
    fst (conformArgumentsThrough (s +:+ " " +:+ m) handlers1 [(n, d1)] routes)
    = <[route_id (s +:+ " " +:+ m) n :=
          mkRoute (resolve_parser d1) (get_handler handlers1 n)]> routes).
  { cbn [conformArgumentsThrough].
    rewrite has_property_route_id, bool_decide_eq_false_2; [done |].
    rewrite Hfresh. by intros [? ?]. }
  rewrite Hfirst. cbn [conformArgumentsThrough].
  rewrite has_property_route_id, bool_decide_eq_true_2; [done |].
  rewrite <- Hid, lookup_insert_eq. eauto.
Qed.

Lemma scope_name_collision_witness :
  route_id ("a" +:+ " " +:+ "b") "c" = route_id "a" ("b" +:+ " " +:+ "c")
  /\ snd (conformArgumentsThrough "a" ∅ [("b" +:+ " " +:+ "c", AssumeTypesafe)]
            (fst (conformArgumentsThrough ("a" +:+ " " +:+ "b") ∅
                    [("c", AssumeTypesafe)] ∅)))
     = Throws (Error ("Route [" +:+ route_id "a" ("b" +:+ " " +:+ "c")
                      +:+ "] was declared twice and is not unique.")).
Proof.
  apply (scope_name_collision "a" "b" "c" ∅ ∅ AssumeTypesafe AssumeTypesafe ∅).
  reflexivity.
Defined.

(** ** Dispatch *)

Lemma dispatch_own routes rpc route :
  routes !! rpc_id rpc = Some route ->
  routeFromTransportInfallibly routes rpc
  = match parser route ThisRoute (rpc_args rpc) with
    | Throws error =>
        ([ParserCalled ThisRoute (rpc_args rpc)],
         Resolves (err "argument parsing failed" error))
    | Returns args =>
        match handler route with
        | None =>
            ([ParserCalled ThisRoute (rpc_args rpc)],
             Rejects (TypeError
               "Cannot read properties of undefined (reading 'call')"))
        | Some h =>
            ([ParserCalled ThisRoute (rpc_args rpc);
              HandlerCalled (ThisContext (rpc_ctx rpc)) args],
             settle (h (ThisContext (rpc_ctx rpc)) args))
        end
    end.
Proof.
  intros Hroute. unfold routeFromTransportInfallibly, get_property.
  rewrite Hroute.
  destruct (parser route ThisRoute (rpc_args rpc)) as [args|e]; [| done].
  destruct (handler route) as [h|]; [| done].
  by destruct (h (ThisContext (rpc_ctx rpc)) args) as [[v|e|]|e].
Qed.

Lemma get_handler_own handlers name h :
  handlers !! name = Some h -> get_handler handlers name = Some h.
Proof. intros H. unfold get_handler. by rewrite H. Qed.

Lemma registered_single scope handlers name decl routes :
  routes !! route_id scope name = None ->
  fst (conformArgumentsThrough scope handlers [(name, decl)] routes)
  !! route_id scope name
  = Some (mkRoute (resolve_parser decl) (get_handler handlers name)).
Proof.
  intros Hfresh. cbn [conformArgumentsThrough].
  rewrite has_property_route_id, bool_decide_eq_false_2
    by (rewrite Hfresh; by intros [? ?]).
  apply lookup_insert_eq.
Qed.

(** A route registered with "assume typesafe" hands the arguments of the
    call to its handler as they are: dispatching to it calls the handler
    once, with those arguments, on an object holding the context of the
    call, and the dispatcher's promise settles as that call does. *)
Theorem assume_typesafe_dispatch scope handlers name h routes context args :
  routes !! route_id scope name = None ->
  handlers !! name = Some h ->
  routeFromTransportInfallibly
    (fst (conformArgumentsThrough scope handlers [(name, AssumeTypesafe)] routes))
    (mkRpc context (route_id scope name) args)
  = ([ParserCalled ThisRoute args; HandlerCalled (ThisContext context) args],
     settle (h (ThisContext context) args)).
Proof.
  intros Hfresh Hh.
  rewrite (dispatch_own _ _ (mkRoute (resolve_parser AssumeTypesafe) (Some h))).
  - reflexivity.
  - cbn [rpc_id]. rewrite registered_single by done.
    by rewrite (get_handler_own _ _ _ Hh).
Qed.

Lemma assume_typesafe_dispatch_witness :
  routeFromTransportInfallibly
    (fst (conformArgumentsThrough "s" {[ "echo" := echo ]}
            [("echo", AssumeTypesafe)] ∅))
    (mkRpc VNull (route_id "s" "echo") [VNumber 1; VNumber 2])
  = ([ParserCalled ThisRoute [VNumber 1; VNumber 2];
      HandlerCalled (ThisContext VNull) [VNumber 1; VNumber 2]],
     settle (echo (ThisContext VNull) [VNumber 1; VNumber 2])).
Proof.
  apply (assume_typesafe_dispatch "s" {[ "echo" := echo ]} "echo" echo ∅ VNull
           [VNumber 1; VNumber 2]); reflexivity.
Defined.

(** The handler only ever sees what the parser returned: whenever the
    dispatcher calls a handler, the identifier is registered, the parser of
    that route returned exactly the arguments the handler is called with,
    and the handler's [this] holds the context of the call. *)
Theorem handler_receives_parsed routes rpc this args :
  HandlerCalled this args ∈ fst (routeFromTransportInfallibly routes rpc) ->
  exists route,
    routes !! rpc_id rpc = Some route
    /\ parser route ThisRoute (rpc_args rpc) = Returns args
    /\ this = ThisContext (rpc_ctx rpc).
Proof.
  unfold routeFromTransportInfallibly, get_property.
  destruct (routes !! rpc_id rpc) as [route|] eqn:Hroute.
  - destruct (parser route ThisRoute (rpc_args rpc)) as [args'|e] eqn:Hparse;
      simpl.
    + destruct (handler route) as [h|]; simpl.
      * intros Hin. exists route.
        assert (Hcall : HandlerCalled this args
                        ∈ [ParserCalled ThisRoute (rpc_args rpc);
                           HandlerCalled (ThisContext (rpc_ctx rpc)) args']).
        { by destruct (h (ThisContext (rpc_ctx rpc)) args') as [[v|e|]|e]. }
        apply elem_of_cons in Hcall as [Hcall | Hcall]; [discriminate |].
        apply list_elem_of_singleton in Hcall. by injection Hcall as -> ->.
      * intros Hin. apply list_elem_of_singleton in Hin. discriminate Hin.
    + intros Hin. apply list_elem_of_singleton in Hin. discriminate Hin.
  - destruct (inherited (rpc_id rpc)); simpl; intros Hin;
      by apply elem_of_nil in Hin.
Qed.

Lemma handler_receives_parsed_witness :
  exists route,
    echo_routes !! "s echo" = Some route
    /\ parser route ThisRoute [VNumber 1; VNumber 2; VNumber 3]
       = Returns [VNumber 1]
    /\ ThisContext (VString "c") = ThisContext (VString "c").
Proof.
  apply (handler_receives_parsed echo_routes
           (mkRpc (VString "c") "s echo" [VNumber 1; VNumber 2; VNumber 3])
           (ThisContext (VString "c")) [VNumber 1]).
  vm_compute. apply elem_of_cons. right. apply elem_of_cons. by left.
Defined.


(** A parser key that [handlers] lacks and [Object.prototype] has. *)
Example inherited_handler_dispatch :
  routeFromTransportInfallibly
    (fst (conformArgumentsThrough "s" ∅ [("toString", AssumeTypesafe)] ∅))
    (mkRpc VUndefined "s toString" [])
  = ([ParserCalled ThisRoute []; HandlerCalled (ThisContext VUndefined) []],
     Rejects (TypeError "route.handler.call(...).then is not a function")).
Proof. reflexivity. Qed.


(** Client and router agree on identifiers: a call made through
    [client.on(scope, ctx)] on the member [name], over a transport that
    hands the call data to the router, reaches the route registered as
    [name] under [scope]; its parser sees the arguments of the call and its
    handler the context given to [on] ([undefined] when none is given). *)
Theorem client_reaches_route scope handlers name decl h routes options args :
  routes !! route_id scope name = None ->
  handlers !! name = Some h ->
  Client_on
    (router_handler
       (fst (conformArgumentsThrough scope handlers [(name, decl)] routes)))
    scope options name args
  = match resolve_parser decl ThisRoute args with
    | Throws error => Resolves (err "argument parsing failed" error)
    | Returns parsed =>
        settle (h (ThisContext (nth 0 options VUndefined)) parsed)
    end.
Proof.
  intros Hfresh Hh. unfold Client_on, router_handler.
  rewrite (dispatch_own _ _ (mkRoute (resolve_parser decl) (Some h))).
  - cbn [parser handler rpc_args rpc_ctx].
    by destruct (resolve_parser decl ThisRoute args).
  - cbn [rpc_id]. rewrite registered_single by done.
    by rewrite (get_handler_own _ _ _ Hh).
Qed.

Lemma client_reaches_route_witness :
  Client_on
    (router_handler
       (fst (conformArgumentsThrough "s" {[ "echo" := echo ]}
               [("echo", CustomParser first_only)] ∅)))
    "s" [] "echo" [VBool true; VNull]
  = match resolve_parser (CustomParser first_only) ThisRoute [VBool true; VNull] with
    | Throws error => Resolves (err "argument parsing failed" error)
    | Returns parsed => settle (echo (ThisContext (nth 0 [] VUndefined)) parsed)
    end.
Proof.
  apply (client_reaches_route "s" {[ "echo" := echo ]} "echo"
           (CustomParser first_only) echo ∅ [] [VBool true; VNull]);
    reflexivity.
Defined.

Example client_call_result :
  Client_on (router_handler echo_routes) "s" [] "echo" [VBool true; VNull]
  = Resolves (VObject [("ok", VArray [VBool true])]).
Proof. reflexivity. Qed.

(** ** The request *)

Lemma parts_keys args : forall i,
  map fst (parts i args) = map index_key (seq i (length args)).
Proof.
  induction args as [|arg args IH]; intros i; simpl; [done |].
  by rewrite IH.
Qed.

Lemma known_tag_chars args : Forall known_tag (map tag_char args).
Proof.
  induction args as [|arg args IH]; simpl; constructor; [| done].
  destruct arg; (by left) || (by right).
Qed.

(** The request of a call with n arguments is a POST whose body has exactly
    n parts, named 0 to n-1 in order, whose identifier header is the
    identifier of the call and whose tag header has n characters, each of
    them [b] or [j]. *)
Theorem request_init_shape rpc :
  map fst (init_body (request_init rpc))
  = map index_key (seq 0 (length (rpc_args rpc)))
  /\ init_method (request_init rpc) = "POST"
  /\ Headers_get "x-simplycall-id" (init_headers (request_init rpc))
     = Some (rpc_id rpc)
  /\ exists argtype,
       Headers_get "x-simplycall-argtype" (init_headers (request_init rpc))
       = Some argtype
       /\ String.length argtype = length (rpc_args rpc)
       /\ Forall known_tag (list_ascii_of_string argtype).
Proof.
  rewrite request_init_eq. cbn [init_body init_method init_headers].
  split; [apply parts_keys |]. split; [done |]. split; [done |].
  exists (String.concat EmptyString (map tag_of (rpc_args rpc))).
  split; [done |].
  rewrite <- length_list_ascii_of_string, split_join_tags.
  split; [apply length_map | apply known_tag_chars].
Qed.

(** ** The receive loop *)

(** The loop over a tag string is the loop over its first part followed,
    when that completes, by the loop over the rest. *)
Lemma decode_args_app id argtype body before after : forall i acc,
  decode_args id argtype body (before ++ after)%list i acc
  = match decode_args id argtype body before i acc with
    | Decoded args => decode_args id argtype body after (i + length before) args
    | other => other
    end.
Proof.
  induction before as [|type before IH]; intros i acc; simpl.
  - by rewrite Nat.add_0_r.
  - destruct (negb (Ascii.eqb type "b") && negb (Ascii.eqb type "j")); [done |].
    destruct (FormData_get (index_key i) body) as [data|]; [| done].
    destruct (falsy data); [done |].
    replace (i + S (length before)) with (S i + length before) by lia.
    destruct (Ascii.eqb type "b"); [apply IH |].
    destruct (JSON_parse (entry_toString data)); [apply IH | done | done].
Qed.

(** The receive side does reject: when the tags before a [j] decode and
    [JSON.parse] throws on the part at the position of that [j] (the part is
    a file, for one, whose string conversion is not JSON), the exception
    escapes [onRequestInfallibly] and its promise rejects with it; the
    dispatcher is not called. *)
Theorem invalid_json_part_rejects handler request id argtype body
    before after prior data context :
  Headers_get "x-simplycall-id" (request_headers request) = Some id ->
  Headers_get "x-simplycall-argtype" (request_headers request) = Some argtype ->
  request_formData request = Resolves body ->
  list_ascii_of_string argtype = (before ++ "j"%char :: after)%list ->
  decode_args id argtype body before 0 [] = Decoded prior ->
  FormData_get (index_key (length before)) body = Some data ->
  falsy data = false ->
  JSON_parse (entry_toString data) = Malformed ->
  onRequestInfallibly handler request context = Rejects SyntaxError.
Proof.
  intros Hid Htype Hbody Hsplit Hbefore Hget Hfalsy Hparse.
  unfold onRequestInfallibly. rewrite Hid, Htype, Hbody, Hsplit.
  rewrite decode_args_app, Hbefore. simpl.
  by rewrite Hget, Hfalsy, Hparse.
Qed.

Lemma invalid_json_part_rejects_witness :
  onRequestInfallibly (fun _ => Resolves (ok VNull)) file_as_json VNull
  = Rejects SyntaxError.
Proof.
  apply (invalid_json_part_rejects (fun _ => Resolves (ok VNull)) file_as_json
           "s r" "bj"
           [("0", EntryFile [Byte.x01]); ("1", EntryFile [Byte.x02])]
           ["b"%char] [] [VBlob [Byte.x01]] (EntryFile [Byte.x02])
           VNull); reflexivity.
Defined.

(** A request without identifier header, without tag header, or whose body
    cannot be read is answered with an error object that does not depend
    on the dispatcher: the call resolves, and no route is consulted. *)
Theorem malformed_request_refused request context :
  Headers_get "x-simplycall-id" (request_headers request) = None
  \/ Headers_get "x-simplycall-argtype" (request_headers request) = None
  \/ (exists e, request_formData request = Rejects e) ->
  exists response, forall handler,
    onRequestInfallibly handler request context = Resolves (Failure response).
Proof.
  unfold onRequestInfallibly.
  intros [Hid | [Htype | [e He]]].
  - rewrite Hid. eauto.
  - rewrite Htype.
    destruct (Headers_get "x-simplycall-id" (request_headers request)); eauto.
  - rewrite He.
    destruct (Headers_get "x-simplycall-id" (request_headers request)); [| eauto].
    destruct (Headers_get "x-simplycall-argtype" (request_headers request)); eauto.
Qed.

Lemma malformed_request_refused_witness :
  exists response, forall handler,
    onRequestInfallibly handler
      (mkRequest [("x-simplycall-id", "s r")] (Resolves [])) VNull
    = Resolves (Failure response).
Proof.
  apply (malformed_request_refused
           (mkRequest [("x-simplycall-id", "s r")] (Resolves [])) VNull).
  right. left. reflexivity.
Defined.

Lemma decode_args_decoded_inv id argtype body types : forall i acc args,
  decode_args id argtype body types i acc = Decoded args ->
  Forall known_tag types
  /\ forall k, k < length types ->
       exists data, FormData_get (index_key (i + k)) body = Some data
                    /\ falsy data = false.
Proof.
  induction types as [|type types IH]; intros i acc args; simpl.
  - intros _. split; [constructor | intros k Hk; lia].
  - destruct (Ascii.eqb type "b") eqn:Eb; simpl.
    + destruct (FormData_get (index_key i) body) as [data|] eqn:Hget;
        [| discriminate].
      destruct (falsy data) eqn:Hfalsy; [discriminate |].
      intros H. apply IH in H as [Htags Hparts]. split.
      * constructor; [| done]. left. by apply Ascii.eqb_eq.
      * intros [|k] Hk.
        -- rewrite Nat.add_0_r. eauto.
        -- replace (i + S k) with (S i + k) by lia. apply Hparts. lia.
    + destruct (Ascii.eqb type "j") eqn:Ej; simpl; [| discriminate].
      destruct (FormData_get (index_key i) body) as [data|] eqn:Hget;
        [| discriminate].
      destruct (falsy data) eqn:Hfalsy; [discriminate |].
      destruct (JSON_parse (entry_toString data));
        [| discriminate | discriminate].
      intros H. apply IH in H as [Htags Hparts]. split.
      * constructor; [| done]. right. by apply Ascii.eqb_eq.
      * intros [|k] Hk.
        -- rewrite Nat.add_0_r. eauto.
        -- replace (i + S k) with (S i + k) by lia. apply Hparts. lia.
Qed.

(** The dispatcher is consulted for well-formed requests only: if the
    answer of [onRequestInfallibly] depends on the dispatcher at all, then
    both headers are present, the body was read, every character of the tag
    string is [b] or [j], and every position of the tag string has a part
    that is not the empty string. *)
Theorem dispatched_only_if_wellformed handler handler' request context :
  onRequestInfallibly handler request context
  <> onRequestInfallibly handler' request context ->
  exists id argtype body,
    Headers_get "x-simplycall-id" (request_headers request) = Some id
    /\ Headers_get "x-simplycall-argtype" (request_headers request) = Some argtype
    /\ request_formData request = Resolves body
    /\ Forall known_tag (list_ascii_of_string argtype)
    /\ forall k, k < String.length argtype ->
         exists data, FormData_get (index_key k) body = Some data
                      /\ falsy data = false.
Proof.
  unfold onRequestInfallibly.
  destruct (Headers_get "x-simplycall-id" (request_headers request))
    as [id|]; [| done].
  destruct (Headers_get "x-simplycall-argtype" (request_headers request))
    as [argtype|]; [| done].
  destruct (request_formData request) as [body| |]; [| done | done].
  destruct (decode_args id argtype body (list_ascii_of_string argtype) 0 [])
    as [args| | |] eqn:Hdecode; [| done | done | done].
  intros _. exists id, argtype, body.
  apply decode_args_decoded_inv in Hdecode as [Htags Hparts].
  rewrite length_list_ascii_of_string in Hparts. eauto 6.
Qed.

Lemma dispatched_only_if_wellformed_witness :
  exists id argtype body,
    Headers_get "x-simplycall-id" (request_headers crowded_request) = Some id
    /\ Headers_get "x-simplycall-argtype" (request_headers crowded_request)
       = Some argtype
    /\ request_formData crowded_request = Resolves body
    /\ Forall known_tag (list_ascii_of_string argtype)
    /\ forall k, k < String.length argtype ->
         exists data, FormData_get (index_key k) body = Some data
                      /\ falsy data = false.
Proof.
  apply (dispatched_only_if_wellformed
           (fun _ => Resolves (ok VNull)) (fun _ => Resolves (ok (VBool true)))
           crowded_request VNull).
  intros H. vm_compute in H. discriminate H.
Defined.

(** The first position whose part is absent, or present but the empty
    string, ends the loop with the missing-argument error naming the tag and
    the position, when the tags before it decode and its own tag is known. *)
Theorem absent_or_empty_part_refused handler request id argtype body
    before type after prior context :
  Headers_get "x-simplycall-id" (request_headers request) = Some id ->
  Headers_get "x-simplycall-argtype" (request_headers request) = Some argtype ->
  request_formData request = Resolves body ->
  list_ascii_of_string argtype = (before ++ type :: after)%list ->
  known_tag type ->
  decode_args id argtype body before 0 [] = Decoded prior ->
  FormData_get (index_key (length before)) body = None
  \/ FormData_get (index_key (length before)) body = Some (EntryString EmptyString) ->
  onRequestInfallibly handler request context
  = Resolves (Failure (VObject [("err", VObject [("missing argument",
      VString ("Route [" +:+ id +:+ "] is missing [" +:+ String type EmptyString
               +:+ "] type argument at position ["
               +:+ index_key (length before) +:+ "]."))])])).
Proof.
  intros Hid Htype Hbody Hsplit Hknown Hbefore Hpart.
  unfold onRequestInfallibly. rewrite Hid, Htype, Hbody, Hsplit.
  rewrite decode_args_app, Hbefore. simpl.
  assert (Htag : negb (Ascii.eqb type "b") && negb (Ascii.eqb type "j") = false)
    by (by destruct Hknown as [-> | ->]).
  rewrite Htag. by destruct Hpart as [-> | ->].
Qed.

Lemma absent_or_empty_part_refused_witness :
  onRequestInfallibly (fun _ => Resolves (ok VNull)) empty_part VNull
  = Resolves (Failure (VObject [("err", VObject [("missing argument",
      VString ("Route [" +:+ "s r" +:+ "] is missing [" +:+ String "b" EmptyString
               +:+ "] type argument at position ["
               +:+ index_key (length (@nil ascii)) +:+ "]."))])])).
Proof.
  apply (absent_or_empty_part_refused (fun _ => Resolves (ok VNull)) empty_part
           "s r" "b" [("0", EntryString EmptyString)] [] "b"%char [] [] VNull);
    try reflexivity.
  - by left.
  - by right.
Defined.

(** The first character of the tag string that is neither [b] nor [j]
    ends the loop with the unknown-argument-type error, which quotes the
    whole tag string, when the tags before it decode; the part at its
    position is not looked at. *)
Theorem unknown_tag_refused handler request id argtype body
    before type after prior context :
  Headers_get "x-simplycall-id" (request_headers request) = Some id ->
  Headers_get "x-simplycall-argtype" (request_headers request) = Some argtype ->
  request_formData request = Resolves body ->
  list_ascii_of_string argtype = (before ++ type :: after)%list ->
  type <> "b"%char -> type <> "j"%char ->
  decode_args id argtype body before 0 [] = Decoded prior ->
  onRequestInfallibly handler request context
  = Resolves (Failure (VObject [("err", VObject [("unknown argument type",
      VString ("Route [" +:+ id +:+ "] called with unknown argument type of ["
               +:+ argtype +:+ "]."))])])).
Proof.
  intros Hid Htype Hbody Hsplit Hb Hj Hbefore.
  unfold onRequestInfallibly. rewrite Hid, Htype, Hbody, Hsplit.
  rewrite decode_args_app, Hbefore. simpl.
  apply Ascii.eqb_neq in Hb, Hj. by rewrite Hb, Hj.
Qed.

Lemma unknown_tag_refused_witness :
  onRequestInfallibly (fun _ => Resolves (ok VNull)) unknown_tag VNull
  = Resolves (Failure (VObject [("err", VObject [("unknown argument type",
      VString ("Route [" +:+ "s r" +:+ "] called with unknown argument type of ["
               +:+ "jx" +:+ "]."))])])).
Proof.
  apply (unknown_tag_refused (fun _ => Resolves (ok VNull)) unknown_tag
           "s r" "jx" [("0", EntryString "1")] ["j"%char] "x"%char [] [VNumber 1]
           VNull); try reflexivity; discriminate.
Defined.

(** ** The response *)

(** A response without the tag header (what a server sends when it maps a
    failure to a bare error response) makes the call reject with an error
    that names the route and prints the absent tag as [null]; the body of
    the response is not read. *)
Theorem untagged_response_rejected config_url fetch rpc result :
  fetch config_url (request_init rpc) = Resolves result ->
  Headers_get "x-simplycall-argtype" (response_headers result) = None ->
  sendThroughTransportFallibly config_url fetch rpc
  = Rejects (Error ("Unable to parse response type [null] for ["
                    +:+ rpc_id rpc +:+ "].")).
Proof.
  intros Hfetch Htag. unfold sendThroughTransportFallibly, decode_response.
  rewrite Hfetch, Htag.
  rewrite !bool_decide_eq_false_2 by discriminate. reflexivity.
Qed.

Lemma untagged_response_rejected_witness :
  sendThroughTransportFallibly "/rpc"
    (fun _ _ => Resolves (mkResponse [] (Rejects (Error "no body"))))
    (mkRpc VUndefined "s r" [])
  = Rejects (Error ("Unable to parse response type [null] for ["
                    +:+ rpc_id (mkRpc VUndefined "s r" []) +:+ "].")).
Proof.
  apply (untagged_response_rejected "/rpc"
           (fun _ _ => Resolves (mkResponse [] (Rejects (Error "no body"))))
           (mkRpc VUndefined "s r" [])
           (mkResponse [] (Rejects (Error "no body")))); reflexivity.
Defined.
